(** * The GH Archive ingestion pipeline of gh/archive.ts

    A shallow embedding of [src/gh/archive.ts]: argument parsing, the
    redirect-following download, the schema registry with its generated
    DDL and insert statements, envelope extraction, and the chunked,
    batched loader.

    Conventions.
    - A JavaScript string is a [string]: a sequence of code units, here
      the 8-bit ones of [ascii].
    - A decoded JSON value is a [jvalue]; numbers are the integers [Z]
      (the records of the feed carry integer numerics only).  A
      JavaScript value that may be [undefined] is an [option jvalue],
      [None] standing for [undefined].
    - An object is the list of its own properties in [Object.keys]
      order, each key at most once.
    - Code that can throw returns a [result].
    - The platform's [JSON.parse] is a parameter of the loader; the
      store is a small model of SQLite tables under [INSERT OR IGNORE].

    The first part holds the program, the second the facts about it. *)

From Stdlib Require Import ZArith String Ascii List Lia.
From stdpp Require Import base option list strings pretty gmap.

Local Open Scope Z_scope.

(** ** Results of code that can throw *)

Inductive result (A : Type) : Type :=
| Ok (a : A)
| Throw (message : string).
Arguments Ok {A} a.
Arguments Throw {A} message.

Definition bind {A B} (r : result A) (k : A -> result B) : result B :=
  match r with
  | Ok a => k a
  | Throw m => Throw m
  end.

Notation "'let!' x ':=' r 'in' k" := (bind r (fun x => k))
  (at level 10, x name, r at level 100, k at level 200).

(** [for (const x of xs) body(x)] over a state that [body] may abandon
    by throwing. *)
Fixpoint for_each {S A} (body : S -> A -> result S) (s : S) (xs : list A) : result S :=
  match xs with
  | [] => Ok s
  | x :: rest => let! s' := body s x in for_each body s' rest
  end.

(** ** Strings: the [String.prototype] operations the program uses *)

Module Str.

Definition LF : ascii := "010"%char.
Definition CR : ascii := "013"%char.

(** [s.split(sep)] for a one-character separator: never empty, and
    [[""]] for the empty string. *)
Fixpoint split (sep : ascii) (s : string) : list string :=
  match s with
  | "" => [""]
  | String c t =>
      if decide (c = sep) then "" :: split sep t
      else match split sep t with
           | h :: r => String c h :: r
           | [] => [String c ""]
           end
  end.

(** [parts.join(sep)]. *)
Fixpoint join (sep : string) (parts : list string) : string :=
  match parts with
  | [] => ""
  | [p] => p
  | p :: rest => p +:+ sep +:+ join sep rest
  end.

(** [s.includes(c)] for a single character. *)
Fixpoint has (c : ascii) (s : string) : bool :=
  match s with
  | "" => false
  | String d t => if decide (d = c) then true else has c t
  end.

(** [lines.pop()] seen as a pair: what stays in the array and the
    element that was removed ([d] when the array was empty). *)
Fixpoint pop (d : string) (l : list string) : list string * string :=
  match l with
  | [] => ([], d)
  | [x] => ([], x)
  | x :: r => let '(i, z) := pop d r in (x :: i, z)
  end.

(** White space and line terminators among the 8-bit code units: what
    [trim], [\s] and [parseInt] skip. *)
Definition is_space (c : ascii) : bool :=
  match c with
  | "009" | "010" | "011" | "012" | "013" | " " | "160" => true
  | _ => false
  end%char.

Definition is_digit (c : ascii) : bool :=
  match c with
  | "0" | "1" | "2" | "3" | "4" | "5" | "6" | "7" | "8" | "9" => true
  | _ => false
  end%char.

(** The value of the leading decimal digits of [s], after [acc], and
    what follows them. *)
Fixpoint digits (acc : Z) (s : string) : Z * string :=
  match s with
  | String c t =>
      if is_digit c then digits (10 * acc + (Z.of_N (N_of_ascii c) - 48)) t
      else (acc, s)
  | "" => (acc, "")
  end.

Fixpoint trimStart (s : string) : string :=
  match s with
  | "" => ""
  | String c t => if is_space c then trimStart t else s
  end.

Fixpoint trimEnd (s : string) : string :=
  match s with
  | "" => ""
  | String c t =>
      match trimEnd t with
      | "" => if is_space c then "" else String c ""
      | t' => String c t'
      end
  end.

Definition trim (s : string) : string := trimEnd (trimStart s).

(** [s.split(/\s+/)[0]]: the characters before the first white space. *)
Fixpoint first_field (s : string) : string :=
  match s with
  | "" => ""
  | String c t => if is_space c then "" else String c (first_field t)
  end.

Fixpoint prefix (p s : string) : bool :=
  match p, s with
  | "", _ => true
  | String a p', String b s' => if decide (a = b) then prefix p' s' else false
  | _, _ => false
  end.

(** [hay.includes(needle)]. *)
Fixpoint includes (needle hay : string) : bool :=
  prefix needle hay ||
  match hay with
  | "" => false
  | String _ t => includes needle t
  end.

(** [s.padStart(2, "0")]. *)
Definition padStart2 (s : string) : string :=
  match s with
  | "" => "00"
  | String c "" => String "0" (String c "")
  | _ => s
  end.

End Str.

(** ** The chunked line reader of [loadEvents] *)

Module Lines.
Import Str.

(** One turn of the [for await] loop, with [processLine] abstracted to
    "emit this line": the lines handed to [processLine] for the chunk
    and the remainder kept for the next. *)
Definition step (remainder chunk : string) : list string * string :=
  let data := remainder +:+ chunk in
  let lines := split LF data in
  pop "" lines.

(** The loop followed by [processLine(remainder)]. *)
Fixpoint feed (remainder : string) (chunks : list string) : list string :=
  match chunks with
  | [] => [remainder]
  | chunk :: rest =>
      let '(lines, remainder') := step remainder chunk in
      lines ++ feed remainder' rest
  end.

(** The lines [loadEvents] hands to [processLine], in order. *)
Definition chunked_lines (chunks : list string) : list string :=
  feed "" chunks.

(** The text the stream carries: the chunks end to end. *)
Definition content (chunks : list string) : string :=
  foldr String.app "" chunks.

(** The reference reading: the whole text split once on line feed. *)
Definition whole_lines (text : string) : list string := split LF text.

End Lines.

(** ** Decoded JSON values and the JavaScript operations on them *)

#[local] Set Warnings "-register-all".

Inductive jvalue : Type :=
| JNull
| JBool (b : bool)
| JNum (n : Z)
| JStr (s : string)
| JArr (items : list jvalue)
| JObj (fields : list (string * jvalue)).

Module JS.

Definition dquote : ascii := "034"%char.
Definition backslash : ascii := "092"%char.

(** The first property named [k] in a property list. *)
Fixpoint assoc {A} (k : string) (fields : list (string * A)) : option A :=
  match fields with
  | [] => None
  | (k', v) :: rest => if decide (k' = k) then Some v else assoc k rest
  end.

(** [o.k] for a property name that no built-in prototype defines (every
    name the program reads by a literal is such a name): the own
    property of an object, [undefined] otherwise. *)
Definition get (o : jvalue) (k : string) : option jvalue :=
  match o with
  | JObj fields => assoc k fields
  | _ => None
  end.

(** [Boolean(v)]. *)
Definition truthy (v : option jvalue) : bool :=
  match v with
  | None | Some JNull | Some (JBool false) | Some (JNum 0) | Some (JStr "") => false
  | _ => true
  end.

(** [v === false]. *)
Definition is_false (v : option jvalue) : bool :=
  match v with
  | Some (JBool false) => true
  | _ => false
  end.

(** [v || {}]. *)
Definition or_empty (v : option jvalue) : jvalue :=
  match v with
  | Some x => if truthy v then x else JObj []
  | None => JObj []
  end.

(** [v ?? null]. *)
Definition or_null (v : option jvalue) : jvalue :=
  match v with
  | Some x => x
  | None => JNull
  end.

(** [String(v)], which is also how a value becomes a property key. *)
Fixpoint to_string (v : jvalue) : string :=
  match v with
  | JNull => "null"
  | JBool true => "true"
  | JBool false => "false"
  | JNum n => pretty n
  | JStr s => s
  | JArr items =>
      Str.join "," (map (fun x => match x with JNull => "" | _ => to_string x end) items)
  | JObj _ => "[object Object]"
  end.

Definition String (v : option jvalue) : string :=
  match v with
  | None => "undefined"
  | Some x => to_string x
  end.

Definition hex_digit (n : N) : ascii :=
  match n with
  | 0 => "0" | 1 => "1" | 2 => "2" | 3 => "3" | 4 => "4" | 5 => "5" | 6 => "6"
  | 7 => "7" | 8 => "8" | 9 => "9" | 10 => "a" | 11 => "b" | 12 => "c"
  | 13 => "d" | 14 => "e" | _ => "f"
  end%N%char.

(** One character inside a JSON string literal. *)
Definition escape (c : ascii) : string :=
  if decide (c = dquote) then String.String backslash (String.String dquote "")
  else if decide (c = backslash) then String.String backslash (String.String backslash "")
  else match c with
       | "008"%char => "\b"
       | "009"%char => "\t"
       | "010"%char => "\n"
       | "012"%char => "\f"
       | "013"%char => "\r"
       | _ =>
           let n := N_of_ascii c in
           if (n <? 32)%N
           then "\u00" +:+ String.String (hex_digit (n / 16)) (String.String (hex_digit (n mod 16)) "")
           else String.String c ""
       end.

Fixpoint escape_all (s : string) : string :=
  match s with
  | "" => ""
  | String.String c t => escape c +:+ escape_all t
  end.

(** [JSON.stringify(s)] for a string. *)
Definition quote (s : string) : string :=
  String.String dquote (escape_all s +:+ String.String dquote "").

(** [JSON.stringify(v)] for a decoded value. *)
Fixpoint stringify (v : jvalue) : string :=
  match v with
  | JNull => "null"
  | JBool true => "true"
  | JBool false => "false"
  | JNum n => pretty n
  | JStr s => quote s
  | JArr items => "[" +:+ Str.join "," (map stringify items) +:+ "]"
  | JObj fields =>
      "{" +:+ Str.join "," (map (fun kv => quote (fst kv) +:+ ":" +:+ stringify (snd kv)) fields) +:+ "}"
  end.

(** The names every plain object inherits from [Object.prototype]; each
    holds a function, except [__proto__], which reads as the prototype
    itself. *)
Definition Object_prototype_names : list string :=
  [ "constructor"; "__defineGetter__"; "__defineSetter__"; "hasOwnProperty";
    "__lookupGetter__"; "__lookupSetter__"; "isPrototypeOf";
    "propertyIsEnumerable"; "toString"; "valueOf"; "__proto__"; "toLocaleString" ].

End JS.

(** ** Schema registry *)

(** [json(v)]: the serialized value, or [null] for [null] and
    [undefined]. *)
Definition json (v : option jvalue) : jvalue :=
  match v with
  | None | Some JNull => JNull
  | Some x => JStr (JS.stringify x)
  end.

Record EventSchema := {
  table : string;
  columns : string;
  extraIndexes : option (list string);
  extract : jvalue -> list jvalue;
}.

Notation "p .[ k ]" := (JS.get p k) (at level 1, k at level 200, format "p .[ k ]").
Notation "v '??null'" := (JS.or_null v) (at level 1, format "v  '??null'").

Definition EVENT_SCHEMAS : list (string * EventSchema) := [
  ("PushEvent", {|
    table := "push_events";
    columns := "repository_id INTEGER, push_id INTEGER, ref TEXT, head TEXT, before_sha TEXT";
    extraIndexes := None;
    extract p := [p.["repository_id"] ??null; p.["push_id"] ??null; p.["ref"] ??null;
                  p.["head"] ??null; p.["before"] ??null] |});
  ("PullRequestEvent", {|
    table := "pull_request_events";
    columns := "action TEXT, number INTEGER, pull_request TEXT, label TEXT, labels TEXT, assignee TEXT, assignees TEXT";
    extraIndexes := Some ["CREATE INDEX idx_pull_request_events_action ON pull_request_events(action)"];
    extract p := [p.["action"] ??null; p.["number"] ??null; json p.["pull_request"];
                  json p.["label"]; json p.["labels"]; json p.["assignee"];
                  json p.["assignees"]] |});
  ("IssuesEvent", {|
    table := "issues_events";
    columns := "action TEXT, issue TEXT, label TEXT, labels TEXT, assignee TEXT, assignees TEXT";
    extraIndexes := Some ["CREATE INDEX idx_issues_events_action ON issues_events(action)"];
    extract p := [p.["action"] ??null; json p.["issue"]; json p.["label"];
                  json p.["labels"]; json p.["assignee"]; json p.["assignees"]] |});
  ("IssueCommentEvent", {|
    table := "issue_comment_events";
    columns := "action TEXT, issue TEXT, comment TEXT";
    extraIndexes := None;
    extract p := [p.["action"] ??null; json p.["issue"]; json p.["comment"]] |});
  ("CreateEvent", {|
    table := "create_events";
    columns := "ref TEXT, ref_type TEXT, full_ref TEXT, master_branch TEXT, description TEXT, pusher_type TEXT";
    extraIndexes := Some ["CREATE INDEX idx_create_events_ref_type ON create_events(ref_type)"];
    extract p := [p.["ref"] ??null; p.["ref_type"] ??null; p.["full_ref"] ??null;
                  p.["master_branch"] ??null; p.["description"] ??null;
                  p.["pusher_type"] ??null] |});
  ("DeleteEvent", {|
    table := "delete_events";
    columns := "ref TEXT, ref_type TEXT, full_ref TEXT, pusher_type TEXT";
    extraIndexes := None;
    extract p := [p.["ref"] ??null; p.["ref_type"] ??null; p.["full_ref"] ??null;
                  p.["pusher_type"] ??null] |});
  ("WatchEvent", {|
    table := "watch_events";
    columns := "action TEXT";
    extraIndexes := None;
    extract p := [p.["action"] ??null] |});
  ("ForkEvent", {|
    table := "fork_events";
    columns := "action TEXT, forkee TEXT";
    extraIndexes := None;
    extract p := [p.["action"] ??null; json p.["forkee"]] |});
  ("ReleaseEvent", {|
    table := "release_events";
    columns := "action TEXT, release TEXT";
    extraIndexes := None;
    extract p := [p.["action"] ??null; json p.["release"]] |});
  ("MemberEvent", {|
    table := "member_events";
    columns := "action TEXT, member TEXT";
    extraIndexes := None;
    extract p := [p.["action"] ??null; json p.["member"]] |});
  ("CommitCommentEvent", {|
    table := "commit_comment_events";
    columns := "action TEXT, comment TEXT";
    extraIndexes := None;
    extract p := [p.["action"] ??null; json p.["comment"]] |});
  ("PublicEvent", {|
    table := "public_events";
    columns := "";
    extraIndexes := None;
    extract _ := [] |});
  ("GollumEvent", {|
    table := "gollum_events";
    columns := "pages TEXT";
    extraIndexes := None;
    extract p := [json p.["pages"]] |});
  ("PullRequestReviewEvent", {|
    table := "pull_request_review_events";
    columns := "action TEXT, review TEXT, pull_request TEXT";
    extraIndexes := None;
    extract p := [p.["action"] ??null; json p.["review"]; json p.["pull_request"]] |});
  ("PullRequestReviewCommentEvent", {|
    table := "pull_request_review_comment_events";
    columns := "action TEXT, comment TEXT, pull_request TEXT";
    extraIndexes := None;
    extract p := [p.["action"] ??null; json p.["comment"]; json p.["pull_request"]] |});
  ("DiscussionEvent", {|
    table := "discussion_events";
    columns := "action TEXT, discussion TEXT";
    extraIndexes := None;
    extract p := [p.["action"] ??null; json p.["discussion"]] |})
].

(** What [EVENT_SCHEMAS[key]] evaluates to. *)
Inductive looked_up : Type :=
| Own (schema : EventSchema)
| Inherited
| Absent.

Definition lookup_schema (key : string) : looked_up :=
  match JS.assoc key EVENT_SCHEMAS with
  | Some schema => Own schema
  | None => if decide (key ∈ JS.Object_prototype_names) then Inherited else Absent
  end.

(** [Object.values(EVENT_SCHEMAS)]. *)
Definition schemas : list EventSchema := map snd EVENT_SCHEMAS.

(** ** Common event columns shared by all tables *)

Definition columnNames (ddl : string) : list string :=
  if decide (ddl = "") then []
  else map (fun col => Str.first_field (Str.trim col)) (Str.split "," ddl).

Definition COMMON_DDL : string := "
  id TEXT PRIMARY KEY,
  created_at TEXT NOT NULL,
  public INTEGER NOT NULL DEFAULT 1,
  actor_id INTEGER,
  actor_login TEXT,
  actor_display_login TEXT,
  actor_gravatar_id TEXT,
  actor_avatar_url TEXT,
  actor_url TEXT,
  repo_id INTEGER,
  repo_name TEXT,
  repo_url TEXT,
  org_id INTEGER,
  org_login TEXT,
  org_gravatar_id TEXT,
  org_avatar_url TEXT,
  org_url TEXT,
  other TEXT".

Definition COMMON_COLS : string := Str.join ", " (columnNames COMMON_DDL).
Definition COMMON_PLACEHOLDERS : string :=
  Str.join ", " (map (fun _ => "?") (columnNames COMMON_DDL)).

Definition KNOWN_EVENT_KEYS : list string :=
  ["id"; "type"; "public"; "created_at"; "actor"; "repo"; "org"; "payload"].

(** [otherFields[key] = value] on a plain object: an own property is
    created or overwritten, except for the key [__proto__], which the
    setter inherited from [Object.prototype] takes (no own property
    results). *)
Fixpoint replace_field (k : string) (v : jvalue) (o : list (string * jvalue))
  : list (string * jvalue) :=
  match o with
  | [] => [(k, v)]
  | (k', v') :: rest =>
      if decide (k' = k) then (k, v) :: rest else (k', v') :: replace_field k v rest
  end.

Definition assign (o : list (string * jvalue)) (k : string) (v : option jvalue)
  : list (string * jvalue) :=
  match v with
  | Some x => if decide (k = "__proto__") then o else replace_field k x o
  | None => o
  end.

(** [Object.keys(event)].  Only an object can carry a type tag, so only
    objects reach [commonValues]. *)
Definition Object_keys (v : jvalue) : list string :=
  match v with
  | JObj fields => map fst fields
  | _ => []
  end.

(** The loop of [commonValues] that fills [otherFields]. *)
Definition otherFields (event : jvalue) : list (string * jvalue) :=
  foldl (fun o key =>
           if decide (key ∈ KNOWN_EVENT_KEYS) then o else assign o key event.[key])
        [] (Object_keys event).

Definition commonValues (event : jvalue) : list (option jvalue) :=
  let actor := JS.or_empty event.["actor"] in
  let repo := JS.or_empty event.["repo"] in
  let org := JS.or_empty event.["org"] in
  let otherFields := otherFields event in
  [ Some (JStr (JS.String event.["id"]));
    event.["created_at"];
    Some (JNum (if JS.is_false event.["public"] then 0 else 1));
    Some (actor.["id"] ??null); Some (actor.["login"] ??null);
    Some (actor.["display_login"] ??null); Some (actor.["gravatar_id"] ??null);
    Some (actor.["avatar_url"] ??null); Some (actor.["url"] ??null);
    Some (repo.["id"] ??null); Some (repo.["name"] ??null); Some (repo.["url"] ??null);
    Some (org.["id"] ??null); Some (org.["login"] ??null); Some (org.["gravatar_id"] ??null);
    Some (org.["avatar_url"] ??null); Some (org.["url"] ??null);
    Some (if (0 <? length otherFields)%nat
          then JStr (JS.stringify (JObj otherFields)) else JNull) ].

(** ** The SQL text the program generates *)

Definition nl : string := String Str.LF "".

(** The script [createArchiveDatabase] hands to [db.exec] for one
    schema. *)
Definition create_script (schema : EventSchema) : string :=
  let extraCols :=
    if decide (columns schema = "") then ""
    else "," +:+ nl +:+ "      " +:+ columns schema in
  let extraIdx :=
    Str.join (nl +:+ "    ")
      (map (fun s => s +:+ ";") (default [] (extraIndexes schema))) in
  nl +:+
  "      CREATE TABLE " +:+ table schema +:+ " (" +:+ COMMON_DDL +:+ extraCols +:+ ");" +:+ nl +:+
  "      CREATE INDEX idx_" +:+ table schema +:+ "_repo ON " +:+ table schema +:+ "(repo_name);" +:+ nl +:+
  "      CREATE INDEX idx_" +:+ table schema +:+ "_actor ON " +:+ table schema +:+ "(actor_login);" +:+ nl +:+
  "      CREATE INDEX idx_" +:+ table schema +:+ "_created ON " +:+ table schema +:+ "(created_at);" +:+ nl +:+
  "      " +:+ extraIdx +:+ nl +:+
  "    ".

(** The statement [prepareInserts] hands to [db.prepare] for one
    schema. *)
Definition insert_sql (schema : EventSchema) : string :=
  let names := columnNames (columns schema) in
  let extraCols := if (0 <? length names)%nat then ", " +:+ Str.join ", " names else "" in
  let extraPh :=
    if (0 <? length names)%nat
    then ", " +:+ Str.join ", " (map (fun _ => "?") names) else "" in
  "INSERT OR IGNORE INTO " +:+ table schema +:+ " (" +:+ COMMON_COLS +:+ extraCols +:+
  ") VALUES (" +:+ COMMON_PLACEHOLDERS +:+ extraPh +:+ ")".

(** ** The store: SQLite as far as the program uses it

    Tables are created from [CREATE TABLE name (definitions)]
    statements and filled by [INSERT OR IGNORE INTO name (columns)
    VALUES (?, ...)] statements; the readers below take these two
    statement forms apart.  A column definition is a name followed by
    its type and constraints, definitions are separated by commas. *)

Module Sql.
Import Str.

Fixpoint strip_prefix (p s : string) : option string :=
  match p, s with
  | "", _ => Some s
  | String a p', String b s' => if decide (a = b) then strip_prefix p' s' else None
  | _, _ => None
  end.

(** The text after the first [c] (empty when there is none). *)
Fixpoint after (c : ascii) (s : string) : string :=
  match s with
  | "" => ""
  | String d t => if decide (d = c) then t else after c t
  end.

(** The text before the first [c] (all of it when there is none). *)
Fixpoint before (c : ascii) (s : string) : string :=
  match s with
  | "" => ""
  | String d t => if decide (d = c) then "" else String d (before c t)
  end.

(** The text before the last [c] (empty when there is none). *)
Fixpoint before_last (c : ascii) (s : string) : string :=
  match s with
  | "" => ""
  | String d t =>
      if has c t then String d (before_last c t) else ""
  end.

Fixpoint count_char (c : ascii) (s : string) : nat :=
  match s with
  | "" => 0%nat
  | String d t => ((if decide (d = c) then 1 else 0) + count_char c t)%nat
  end.

(** The statements of a script: the non-blank pieces between
    semicolons. *)
Definition statements (script : string) : list string :=
  filter (fun s => s <> "") (map trim (split ";" script)).

(** The column definitions of a [CREATE TABLE] statement. *)
Definition definitions (stmt : string) : list string :=
  map trim (split "," (before_last ")" (after "(" stmt))).

Definition column_name (definition : string) : string := first_field definition.

(** The column list of an [INSERT] statement. *)
Definition insert_columns (stmt : string) : list string :=
  map trim (split "," (before ")" (after "(" stmt))).

(** The number of [?] parameters of an [INSERT] statement. *)
Definition insert_parameters (stmt : string) : nat :=
  count_char "?" (after ")" stmt).

Inductive sqlval : Type :=
| SNull
| SInt (n : Z)
| SText (s : string).

Global Instance sqlval_eq_dec : EqDecision sqlval.
Proof. solve_decision. Defined.

Record Table := {
  defs : list string;
  rows : list (list sqlval);
}.

Definition column_names (t : Table) : list string := map column_name (defs t).

(** Positions of the columns whose definition carries a constraint. *)
Definition constrained (keyword : string) (t : Table) : list nat :=
  map fst (filter (fun d => includes keyword (snd d) = true) (imap pair (defs t))).

Definition cell (row : list sqlval) (i : nat) : sqlval := default SNull (row !! i).

(** A [NOT NULL] column would hold [NULL]. *)
Definition violates_not_null (t : Table) (row : list sqlval) : bool :=
  existsb (fun i => bool_decide (cell row i = SNull)) (constrained "NOT NULL" t).

(** A stored row has the same non-null value in a [PRIMARY KEY]
    column. *)
Definition violates_primary_key (t : Table) (row : list sqlval) : bool :=
  existsb (fun i =>
             bool_decide (cell row i <> SNull) &&
             existsb (fun r => bool_decide (cell r i = cell row i)) (rows t))
          (constrained "PRIMARY KEY" t).

(** [INSERT OR IGNORE]: a row that violates a constraint is skipped. *)
Definition insert_or_ignore (row : list sqlval) (t : Table) : Table :=
  if violates_not_null t row || violates_primary_key t row then t
  else {| defs := defs t; rows := rows t ++ [row] |}.

(** [db.exec] of one statement.  An index holds no rows of its own. *)
Definition exec_statement (db : gmap string Table) (stmt : string)
  : result (gmap string Table) :=
  match strip_prefix "CREATE TABLE " stmt with
  | Some rest =>
      let name := first_field rest in
      match db !! name with
      | Some _ => Throw ("SqliteError: table " +:+ name +:+ " already exists")
      | None => Ok (<[name := {| defs := definitions stmt; rows := [] |}]> db)
      end
  | None =>
      match strip_prefix "CREATE INDEX " stmt with
      | Some _ => Ok db
      | None => Throw "SqliteError: syntax error"
      end
  end.

Definition exec (db : gmap string Table) (script : string) : result (gmap string Table) :=
  for_each exec_statement db (statements script).

(** A prepared [INSERT OR IGNORE] statement. *)
Record Statement := {
  source : string;
  into : string;
  cols : list string;
  params : nat;
}.

(** [db.prepare(sql)]. *)
Definition prepare (db : gmap string Table) (sql : string) : result Statement :=
  match strip_prefix "INSERT OR IGNORE INTO " sql with
  | None => Throw "SqliteError: syntax error"
  | Some rest =>
      let name := first_field rest in
      let names := insert_columns sql in
      let n := insert_parameters sql in
      match db !! name with
      | None => Throw ("SqliteError: no such table: " +:+ name)
      | Some t =>
          if negb (forallb (fun c => bool_decide (c ∈ column_names t)) names)
          then Throw "SqliteError: table has no such column"
          else if negb (length names =? n)%nat
          then Throw "SqliteError: values do not match columns"
          else Ok {| source := sql; into := name; cols := names; params := n |}
      end
  end.

End Sql.

(** ** Database creation (driven by EVENT_SCHEMAS) *)

Abbreviation Db := (gmap string Sql.Table).

(** [disk] is the store file a previous run left behind, if any: it is
    unlinked before the new store is opened. *)
Definition createArchiveDatabase (disk : option Db) : result Db :=
  let disk := @None Db in
  let db := default ∅ disk in
  for_each (fun db schema => Sql.exec db (create_script schema)) db schemas.

(** ** Insert preparation (driven by EVENT_SCHEMAS) *)

Fixpoint prepareInserts_from (db : Db) (entries : list (string * EventSchema))
  : result (list (string * Sql.Statement)) :=
  match entries with
  | [] => Ok []
  | (eventType, schema) :: rest =>
      let! stmt := Sql.prepare db (insert_sql schema) in
      let! stmts := prepareInserts_from db rest in
      Ok ((eventType, stmt) :: stmts)
  end.

Definition prepareInserts (db : Db) : result (list (string * Sql.Statement)) :=
  prepareInserts_from db EVENT_SCHEMAS.

(** ** Load JSON into SQLite *)

Definition BATCH_SIZE : Z := 10000.

(** One element of [batch]. *)
Record Row := {
  type : option jvalue;
  values : list (option jvalue);
}.

(** The variables of [loadEvents], the store it writes to, and the
    history of its [flush] calls (each the rows of one committed
    transaction, oldest first). *)
Record Loader := {
  count : Z;
  batch : list Row;
  typeCounts : gmap string Z;
  db : Db;
  flushed : list (list Row);
}.

Section loader.

(** [JSON.parse]: [None] when it throws. *)
Variable JSON_parse : string -> option jvalue.

(** What the store's driver binds for [undefined], if it binds it at
    all. *)
Variable bind_undefined : option Sql.sqlval.

(** One parameter value as the driver binds it: numbers, strings and
    [null] are bound, booleans and nested containers are refused. *)
Definition bind_value (v : option jvalue) : option Sql.sqlval :=
  match v with
  | None => bind_undefined
  | Some JNull => Some Sql.SNull
  | Some (JNum n) => Some (Sql.SInt n)
  | Some (JStr s) => Some (Sql.SText s)
  | Some (JBool _) | Some (JArr _) | Some (JObj _) => None
  end.

Fixpoint bind_values (vs : list (option jvalue)) : option (list Sql.sqlval) :=
  match vs with
  | [] => Some []
  | v :: rest =>
      match bind_value v, bind_values rest with
      | Some x, Some xs => Some (x :: xs)
      | _, _ => None
      end
  end.

(** The arguments of [stmt.run(...values)] as the driver reads them: an
    array stands for the list of its elements, a plain object is a bag
    of named parameters (of which the statements here have none, and of
    which there may be one only), anything else is one value. *)
Fixpoint bind_arguments (seen_bag : bool) (args : list (option jvalue))
  : option (list Sql.sqlval) :=
  match args with
  | [] => Some []
  | Some (JArr items) :: rest =>
      match bind_values (map Some items), bind_arguments seen_bag rest with
      | Some xs, Some ys => Some (xs ++ ys)
      | _, _ => None
      end
  | Some (JObj _) :: rest =>
      if seen_bag then None else bind_arguments true rest
  | v :: rest =>
      match bind_value v, bind_arguments seen_bag rest with
      | Some x, Some ys => Some (x :: ys)
      | _, _ => None
      end
  end.

(** The row an insert writes: each column of the table takes the value
    bound for it, [NULL] when the statement does not list it. *)
Definition row_of (t : Sql.Table) (stmt : Sql.Statement) (bound : list Sql.sqlval)
  : list Sql.sqlval :=
  map (fun c => default Sql.SNull (JS.assoc c (zip (Sql.cols stmt) bound)))
      (Sql.column_names t).

(** [stmt.run(...values)]. *)
Definition run (stmt : Sql.Statement) (args : list (option jvalue)) (db : Db) : result Db :=
  match bind_arguments false args with
  | None => Throw "TypeError: SQLite3 can only bind numbers, strings, bigints, buffers, and null"
  | Some bound =>
      if negb (length bound =? Sql.params stmt)%nat
      then Throw "RangeError: wrong number of parameter values"
      else match db !! Sql.into stmt with
           | None => Throw "SqliteError: no such table"
           | Some t => Ok (<[Sql.into stmt := Sql.insert_or_ignore (row_of t stmt bound) t]> db)
           end
  end.

(** [flush(rows)]: every row's statement inside one transaction. *)
Definition flush (stmts : list (string * Sql.Statement)) (rows : list Row) (db : Db)
  : result Db :=
  for_each (fun db row =>
              match JS.assoc (JS.String (type row)) stmts with
              | Some stmt => run stmt (values row) db
              | None => Throw "TypeError: Cannot read properties of undefined (reading 'run')"
              end)
           db rows.

Definition flush_batch (stmts : list (string * Sql.Statement)) (st : Loader)
  : result Loader :=
  let! db' := flush stmts (batch st) (db st) in
  Ok {| count := count st; batch := batch st; typeCounts := typeCounts st;
        db := db'; flushed := flushed st ++ [batch st] |}.

Definition processLine (stmts : list (string * Sql.Statement)) (st : Loader) (line : string)
  : result Loader :=
  if decide (Str.trim line = "") then Ok st
  else
    match JSON_parse line with
    | None => Ok st
    | Some JNull => Throw "TypeError: Cannot read properties of null (reading 'type')"
    | Some event =>
        let key := JS.String event.["type"] in
        match lookup_schema key with
        | Absent => Ok st
        | Inherited => Throw "TypeError: schema.extract is not a function"
        | Own schema =>
            let row := {| type := event.["type"];
                          values := commonValues event ++
                                    map Some (extract schema (JS.or_empty event.["payload"])) |} in
            let st := {| count := count st + 1;
                         batch := batch st ++ [row];
                         typeCounts := <[key := default 0 (typeCounts st !! key) + 1]> (typeCounts st);
                         db := db st; flushed := flushed st |} in
            if BATCH_SIZE <=? Z.of_nat (length (batch st)) then
              let! st := flush_batch stmts st in
              Ok {| count := count st; batch := []; typeCounts := typeCounts st;
                    db := db st; flushed := flushed st |}
            else Ok st
        end
    end.

(** The [for await] loop over the chunks of the stream. *)
Fixpoint read_chunks (stmts : list (string * Sql.Statement)) (st : Loader)
  (remainder : string) (chunks : list string) : result (Loader * string) :=
  match chunks with
  | [] => Ok (st, remainder)
  | chunk :: rest =>
      let data := remainder +:+ chunk in
      let lines := Str.split Str.LF data in
      let '(lines, remainder) := Str.pop "" lines in
      let! st := for_each (processLine stmts) st lines in
      read_chunks stmts st remainder rest
  end.

Definition loadEvents (chunks : list string) (db : Db) : result Loader :=
  let! stmts := prepareInserts db in
  let st := {| count := 0; batch := []; typeCounts := ∅; db := db; flushed := [] |} in
  let! r := read_chunks stmts st "" chunks in
  let! st := processLine stmts (fst r) (snd r) in
  if (0 <? length (batch st))%nat then flush_batch stmts st else Ok st.

(** The part of [main] that builds the store: a fresh database, then
    the load.  [disk] is what an earlier run left. *)
Definition ingest (disk : option Db) (chunks : list string) : result Loader :=
  let! db := createArchiveDatabase disk in
  loadEvents chunks db.

End loader.

(** ** A JSON decoder for the worked examples

    [JSON.parse] is a parameter of the loader.  The examples run the
    loader on concrete lines and need a concrete decoder: this one
    reads the JSON texts whose numbers are integers and whose strings
    use the two-character escapes only, and refuses everything else.
    Properties are kept in source order, a repeated key keeps its first
    place and its last value. *)

Module Json.
Import Str.

Fixpoint skip_ws (s : string) : string :=
  match s with
  | String c t =>
      match c with
      | " " | "009" | "010" | "013" => skip_ws t
      | _ => s
      end%char
  | "" => ""
  end.

(** An integer literal: no leading zero, no fraction, no exponent. *)
Definition number (s : string) : option (Z * string) :=
  let '(neg, s) := match s with
                   | String "-" t => (true, t)
                   | _ => (false, s)
                   end in
  match s with
  | String c t =>
      if is_digit c then
        let '(n, rest) := digits 0 s in
        let leading_zero :=
          match s with
          | String "0" (String d _) => is_digit d
          | _ => false
          end in
        let more :=
          match rest with
          | String "." _ | String "e" _ | String "E" _ => true
          | _ => false
          end in
        if leading_zero || more then None
        else Some (if neg then - n else n, rest)
      else None
  | "" => None
  end.

(** The characters of a string literal after its opening quote. *)
Fixpoint chars (s : string) : option (string * string) :=
  match s with
  | "" => None
  | String c t =>
      if decide (c = JS.dquote) then Some ("", t)
      else if decide (c = JS.backslash) then
        match t with
        | String e t' =>
            let put x := match chars t' with
                         | Some (r, rest) => Some (String x r, rest)
                         | None => None
                         end in
            if decide (e = JS.dquote) then put JS.dquote
            else if decide (e = JS.backslash) then put JS.backslash
            else match e with
                 | "/" => put "/"
                 | "b" => put "008"
                 | "f" => put "012"
                 | "n" => put "010"
                 | "r" => put "013"
                 | "t" => put "009"
                 | _ => None
                 end%char
        | "" => None
        end
      else if (N_of_ascii c <? 32)%N then None
      else match chars t with
           | Some (r, rest) => Some (String c r, rest)
           | None => None
           end
  end.

Fixpoint value (fuel : nat) (s : string) : option (jvalue * string) :=
  match fuel with
  | O => None
  | S fuel =>
      match skip_ws s with
      | String "[" t =>
          match skip_ws t with
          | String "]" rest => Some (JArr [], rest)
          | t => elements fuel [] t
          end
      | String "{" t =>
          match skip_ws t with
          | String "}" rest => Some (JObj [], rest)
          | t => members fuel [] t
          end
      | String c t as s' =>
          if decide (c = JS.dquote) then
            match chars t with
            | Some (r, rest) => Some (JStr r, rest)
            | None => None
            end
          else
            match Sql.strip_prefix "null" s', Sql.strip_prefix "true" s',
                  Sql.strip_prefix "false" s' with
            | Some rest, _, _ => Some (JNull, rest)
            | _, Some rest, _ => Some (JBool true, rest)
            | _, _, Some rest => Some (JBool false, rest)
            | _, _, _ =>
                match number s' with
                | Some (n, rest) => Some (JNum n, rest)
                | None => None
                end
            end
      | "" => None
      end
  end
with elements (fuel : nat) (acc : list jvalue) (s : string) : option (jvalue * string) :=
  match fuel with
  | O => None
  | S fuel =>
      match value fuel s with
      | Some (v, rest) =>
          match skip_ws rest with
          | String "," t => elements fuel (acc ++ [v]) t
          | String "]" t => Some (JArr (acc ++ [v]), t)
          | _ => None
          end
      | None => None
      end
  end
with members (fuel : nat) (acc : list (string * jvalue)) (s : string)
  : option (jvalue * string) :=
  match fuel with
  | O => None
  | S fuel =>
      match skip_ws s with
      | String q t =>
          if decide (q = JS.dquote) then
            match chars t with
            | Some (k, rest) =>
                match skip_ws rest with
                | String ":" rest =>
                    match value fuel rest with
                    | Some (v, rest) =>
                        match skip_ws rest with
                        | String "," t => members fuel (replace_field k v acc) t
                        | String "}" t => Some (JObj (replace_field k v acc), t)
                        | _ => None
                        end
                    | None => None
                    end
                | _ => None
                end
            | None => None
            end
          else None
      | "" => None
      end
  end.

Definition parse (text : string) : option jvalue :=
  match value (S (String.length text)) text with
  | Some (v, rest) => if decide (skip_ws rest = "") then Some v else None
  | None => None
  end.

End Json.

(** ** The UTC calendar behind [Date]

    A [Date] is its time value, the milliseconds since the epoch; the
    calendar fields are those of the proleptic Gregorian calendar. *)

Module Calendar.

Definition msPerDay : Z := 86400000.

(** The day number of a time value. *)
Definition Day (t : Z) : Z := t / msPerDay.

(** Year, month (1 to 12) and day of month of a day number. *)
Definition civil_from_days (z : Z) : Z * Z * Z :=
  let z := z + 719468 in
  let era := z / 146097 in
  let doe := z - era * 146097 in
  let yoe := (doe - doe / 1460 + doe / 36524 - doe / 146096) / 365 in
  let y := yoe + era * 400 in
  let doy := doe - (365 * yoe + yoe / 4 - yoe / 100) in
  let mp := (5 * doy + 2) / 153 in
  let d := doy - (153 * mp + 2) / 5 + 1 in
  let m := if mp <? 10 then mp + 3 else mp - 9 in
  (if m <=? 2 then y + 1 else y, m, d).

(** The day number of a year, month (1 to 12) and day of month; the
    day of month may lie outside the month. *)
Definition days_from_civil (y m d : Z) : Z :=
  let y := if m <=? 2 then y - 1 else y in
  let era := y / 400 in
  let yoe := y - era * 400 in
  let doy := (153 * (if 2 <? m then m - 3 else m + 9) + 2) / 5 + d - 1 in
  let doe := yoe * 365 + yoe / 4 - yoe / 100 + doy in
  era * 146097 + doe - 719468.

Definition getUTCFullYear (t : Z) : Z := fst (fst (civil_from_days (Day t))).
Definition getUTCMonth (t : Z) : Z := snd (fst (civil_from_days (Day t))) - 1.
Definition getUTCDate (t : Z) : Z := snd (civil_from_days (Day t)).

(** [t.setUTCDate(dt)]: the same month and time of day, day of month
    [dt] counted from the first of the month. *)
Definition setUTCDate (t dt : Z) : Z :=
  (days_from_civil (getUTCFullYear t) (getUTCMonth t + 1) 1 + dt - 1) * msPerDay
  + t mod msPerDay.

End Calendar.

(** ** Argument parsing *)

(** [/^\d{4}-\d{2}-\d{2}$/.test(date)]. *)
Definition date_format (date : string) : bool :=
  match date with
  | String y1 (String y2 (String y3 (String y4 (String "-"
      (String m1 (String m2 (String "-" (String d1 (String d2 "")))))))))  =>
      forallb Str.is_digit [y1; y2; y3; y4; m1; m2; d1; d2]
  | _ => false
  end.

(** [parseInt(s, 10)]: leading white space, a sign, then the longest
    run of decimal digits; [None] is [NaN]. *)
Definition parseInt (s : string) : option Z :=
  let s := Str.trimStart s in
  let '(negative, s) :=
    match s with
    | String "-" t => (true, t)
    | String "+" t => (false, t)
    | _ => (false, s)
    end in
  match s with
  | String c _ =>
      if Str.is_digit c
      then let n := fst (Str.digits 0 s) in Some (if negative then - n else n)
      else None
  | "" => None
  end.

Record Args := {
  date : string;
  hour : Z;
}.

(** [args] is [process.argv.slice(2)], [now] the clock's time value. *)
Definition parseArgs (args : list string) (now : Z) : result Args :=
  match args with
  | [] =>
      let yesterday := Calendar.setUTCDate now (Calendar.getUTCDate now - 1) in
      let y := Calendar.getUTCFullYear yesterday in
      let m := Str.padStart2 (pretty (Calendar.getUTCMonth yesterday + 1)) in
      let d := Str.padStart2 (pretty (Calendar.getUTCDate yesterday)) in
      Ok {| date := pretty y +:+ "-" +:+ m +:+ "-" +:+ d; hour := 0 |}
  | date :: rest =>
      if negb (date_format date)
      then Throw ("Invalid date format: " +:+ date +:+ ". Expected YYYY-MM-DD")
      else
        let hour := match rest with
                    | h :: _ => parseInt h
                    | [] => Some 0
                    end in
        match hour with
        | Some h =>
            if (h <? 0) || (23 <? h)
            then Throw ("Invalid hour: " +:+ JS.String (JStr <$> rest !! 0%nat) +:+ ". Expected 0-23")
            else Ok {| date := date; hour := h |}
        | None =>
            Throw ("Invalid hour: " +:+ JS.String (JStr <$> rest !! 0%nat) +:+ ". Expected 0-23")
        end
  end.

(** The hour [parseArgs] accepts for an hour argument, if any. *)
Definition hour_read (h : string) : option Z :=
  match parseInt h with
  | Some n => if (n <? 0) || (23 <? n) then None else Some n
  | None => None
  end.

(** The date of a day number as [parseArgs] writes it. *)
Definition iso_date (day : Z) : string :=
  let '(y, m, d) := Calendar.civil_from_days day in
  pretty y +:+ "-" +:+ Str.padStart2 (pretty m) +:+ "-" +:+ Str.padStart2 (pretty d).

(** ** Download *)

(** What the network answers to a request. *)
Inductive reply : Type :=
| Response (statusCode : Z) (location : option string) (body : string)
| NetworkError (message : string).

(** How a download ends: the destination file holds the body, or the
    promise is rejected and the file is gone. *)
Inductive outcome : Type :=
| Resolved (file : string)
| Rejected (message : string).

(** [download(url, dest)] against a network [net].  [fuel] bounds the
    number of requests the model follows; [None] says the download is
    still under way after that many.  The result lists the URLs
    requested, in order. *)
Fixpoint download (fuel : nat) (net : string -> reply) (url : string)
  : option (list string * outcome) :=
  match fuel with
  | O => None
  | S fuel =>
      match net url with
      | Response statusCode location body =>
          if (statusCode =? 301) || (statusCode =? 302) then
            match location with
            | Some target =>
                match download fuel net target with
                | Some (urls, o) => Some (url :: urls, o)
                | None => None
                end
            | None => Some ([url], Rejected "TypeError: invalid URL")
            end
          else if negb (statusCode =? 200) then
            Some ([url], Rejected ("HTTP " +:+ pretty statusCode +:+ " for " +:+ url))
          else Some ([url], Resolved body)
      | NetworkError message => Some ([url], Rejected message)
      end
  end.

(** ** Main *)

(** What [main] finds around it. *)
Record World := {
  net : string -> reply;
  cached_gz : option string;
  cached_json : option string;
  gunzip : string -> option string;
  chunking : string -> list string;
  disk : option Db;
}.

(** How a run of [main] ends, with the URLs it requested. *)
Record Run := {
  requested : list string;
  ended : result Loader;
}.

Section main.

Variable JSON_parse : string -> option jvalue.
Variable bind_undefined : option Sql.sqlval.

Definition main (fuel : nat) (args : list string) (now : Z) (w : World) : option Run :=
  match parseArgs args now with
  | Throw m => Some {| requested := []; ended := Throw m |}
  | Ok a =>
      let filename := date a +:+ "-" +:+ pretty (hour a) in
      let url := "https://data.gharchive.org/" +:+ filename +:+ ".json.gz" in
      let fetched :=
        match cached_gz w with
        | Some gz => Some ([], Resolved gz)
        | None => download fuel (net w) url
        end in
      match fetched with
      | None => None
      | Some (urls, Rejected m) => Some {| requested := urls; ended := Throw m |}
      | Some (urls, Resolved gz) =>
          let text :=
            match cached_json w with
            | Some text => Ok text
            | None =>
                match gunzip w gz with
                | Some text => Ok text
                | None => Throw "Error: incorrect header check"
                end
            end in
          Some {| requested := urls;
                  ended := let! text := text in
                           ingest JSON_parse bind_undefined (disk w) (chunking w text) |}
      end
  end.

End main.

(** ** The loader, taken apart

    The definitions below name the pieces of [loadEvents] that the
    facts speak about; each is shown equal to the corresponding piece
    of the program in the second part. *)

(** What [processLine] makes of a line before it touches the batch. *)
Inductive reading : Type :=
| Skipped
| Accepted (key : string) (row : Row)
| Fails (message : string).

Section reading.

Variable JSON_parse : string -> option jvalue.
Variable bind_undefined : option Sql.sqlval.

Definition read_line (line : string) : reading :=
  if decide (Str.trim line = "") then Skipped
  else
    match JSON_parse line with
    | None => Skipped
    | Some JNull => Fails "TypeError: Cannot read properties of null (reading 'type')"
    | Some event =>
        let key := JS.String event.["type"] in
        match lookup_schema key with
        | Absent => Skipped
        | Inherited => Fails "TypeError: schema.extract is not a function"
        | Own schema =>
            Accepted key
              {| type := event.["type"];
                 values := commonValues event ++
                           map Some (extract schema (JS.or_empty event.["payload"])) |}
        end
    end.

(** The rest of [processLine] for an accepted line. *)
Definition push (stmts : list (string * Sql.Statement)) (st : Loader)
  (key : string) (row : Row) : result Loader :=
  let st := {| count := count st + 1;
               batch := batch st ++ [row];
               typeCounts := <[key := default 0 (typeCounts st !! key) + 1]> (typeCounts st);
               db := db st; flushed := flushed st |} in
  if BATCH_SIZE <=? Z.of_nat (length (batch st)) then
    let! st := flush_batch bind_undefined stmts st in
    Ok {| count := count st; batch := []; typeCounts := typeCounts st;
          db := db st; flushed := flushed st |}
  else Ok st.

(** The rows the lines yield, each with the registry key of its type
    tag. *)
Definition accepted (lines : list string) : list (string * Row) :=
  omap (fun line => match read_line line with
                    | Accepted key row => Some (key, row)
                    | _ => None
                    end) lines.

(** [loadEvents] on the lines themselves. *)
Definition load_lines (lines : list string) (db : Db) : result Loader :=
  let! stmts := prepareInserts db in
  let st := {| count := 0; batch := []; typeCounts := ∅; db := db; flushed := [] |} in
  let! st := for_each (processLine JSON_parse bind_undefined stmts) st lines in
  if (0 <? length (batch st))%nat then flush_batch bind_undefined stmts st else Ok st.

(** A line that is not blank, decodes, and carries a type tag of the
    registry. *)
Definition counted (line : string) : bool :=
  bool_decide (Str.trim line <> "") &&
  match JSON_parse line with
  | Some event => bool_decide (is_Some (JS.assoc (JS.String event.["type"]) EVENT_SCHEMAS))
  | None => false
  end.

Definition tag (line : string) : string :=
  match JSON_parse line with
  | Some event => JS.String event.["type"]
  | None => ""
  end.

(** The statement for a row binds its values, one per parameter. *)
Definition can_run (stmts : list (string * Sql.Statement)) (row : Row) : bool :=
  match JS.assoc (JS.String (type row)) stmts with
  | Some stmt =>
      match bind_arguments bind_undefined false (values row) with
      | Some bound => (length bound =? Sql.params stmt)%nat
      | None => false
      end
  | None => false
  end.

(** A line the loader takes without failing: it is skipped, or it
    yields a row whose insert can run. *)
Definition takes (stmts : list (string * Sql.Statement)) (line : string) : bool :=
  match read_line line with
  | Skipped => true
  | Accepted _ row => can_run stmts row
  | Fails _ => false
  end.

(** A line that yields no row of a type other than [key]. *)
Definition of_type (key : string) (line : string) : bool :=
  match read_line line with
  | Accepted key' _ => bool_decide (key' = key)
  | _ => true
  end.

(** The values a row's statement binds. *)
Definition bound_values (row : Row) : list Sql.sqlval :=
  default [] (bind_arguments bind_undefined false (values row)).

End reading.

(** How [loadEvents] cuts its rows into transactions: full batches,
    then at most one batch that is not empty and not full. *)
Definition batches (groups : list (list Row)) : Prop :=
  exists full last,
    groups = full ++ last
    /\ Forall (fun g => Z.of_nat (length g) = BATCH_SIZE) full
    /\ (last = [] \/ exists g, last = [g] /\ 0 < Z.of_nat (length g) < BATCH_SIZE).

(** [typeCounts] after rows with these keys, in order. *)
Definition tally (keys : list string) : gmap string Z :=
  foldl (fun m k => <[k := default 0 (m !! k) + 1]> m) ∅ keys.

(** The [CREATE TABLE] statement of a schema's script, its column
    names, and the same object without one of its properties. *)
Definition create_table_statement (schema : EventSchema) : string :=
  hd "" (Sql.statements (create_script schema)).

Definition table_columns (schema : EventSchema) : list string :=
  map Sql.column_name (Sql.definitions (create_table_statement schema)).

Definition without (k : string) (fields : list (string * jvalue)) : list (string * jvalue) :=
  filter (fun kv => fst kv <> k) fields.

(** The store [createArchiveDatabase] builds, and the statements
    [prepareInserts] prepares on it. *)
Definition from_result {A} (default : A) (r : result A) : A :=
  match r with
  | Ok a => a
  | Throw _ => default
  end.

Definition fresh_store : Db :=
  from_result (∅ : Db) (createArchiveDatabase None).

Definition prepared : list (string * Sql.Statement) :=
  from_result (@nil (string * Sql.Statement)) (prepareInserts fresh_store).

(** The primary key of a stored row: the value of its first column. *)
Definition row_id (row : list Sql.sqlval) : Sql.sqlval := Sql.cell row 0.

(** A row whose first value is a string: what [commonValues] builds. *)
Definition keyed (row : Row) : Prop :=
  exists s rest, values row = Some (JStr s) :: rest.

(** No two rows of a table share an identifier. *)
Definition unique_ids (db : Db) : Prop :=
  forall name t, db !! name = Some t -> NoDup (map row_id (Sql.rows t)).

(** The number of rows a store holds in a table. *)
Definition row_count (db : Db) (name : string) : nat :=
  match db !! name with
  | Some t => length (Sql.rows t)
  | None => 0%nat
  end.

Definition total_rows (db : Db) : nat :=
  foldr (fun schema n => (row_count db (table schema) + n)%nat) 0%nat schemas.

(** ** Inputs for the worked examples *)

Module Sample.

Definition q : string := String JS.dquote "".

(** [{"id":"<id>","type":"<type>","created_at":"t"}] *)
Definition event_line (id type : string) : string :=
  "{" +:+ q +:+ "id" +:+ q +:+ ":" +:+ q +:+ id +:+ q +:+ ","
  +:+ q +:+ "type" +:+ q +:+ ":" +:+ q +:+ type +:+ q +:+ ","
  +:+ q +:+ "created_at" +:+ q +:+ ":" +:+ q +:+ "t" +:+ q +:+ "}".

Definition watch : string := event_line "1" "WatchEvent".

(** One more line than a batch holds. *)
Definition many : nat := Z.to_nat (BATCH_SIZE + 1).

(** A snapshot of [many] watch events, read as a single chunk. *)
Definition snapshot : list string := [Str.join nl (replicate many watch)].

(** The example of the specification: an event, a blank line, and the
    same event again, cut into chunks in the middle of a record. *)
Definition twice : list string :=
  [ "{" +:+ q +:+ "id" +:+ q +:+ ":" +:+ q +:+ "1" +:+ q +:+ "," +:+ q +:+ "ty";
    "pe" +:+ q +:+ ":" +:+ q +:+ "WatchEvent" +:+ q +:+ "," +:+ q +:+ "created_at" +:+ q
      +:+ ":" +:+ q +:+ "t" +:+ q +:+ "}" +:+ nl +:+ nl;
    watch ].

(** A line that is not JSON between two events of different types. *)
Definition noisy : list string :=
  [ watch; "{not json"; event_line "2" "ForkEvent" ].

(** The loader's variables before the first line, on the fresh
    store. *)
Definition start : Loader :=
  {| count := 0; batch := []; typeCounts := ∅; db := fresh_store; flushed := [] |}.

(** A record with a top-level key of its own, and one whose extra key
    is [__proto__]. *)
Definition with_extra : jvalue :=
  JObj [("id", JStr "1"); ("type", JStr "WatchEvent"); ("created_at", JStr "t");
        ("score", JNum 7)].

Definition with_proto : jvalue :=
  JObj [("id", JStr "1"); ("type", JStr "WatchEvent"); ("created_at", JStr "t");
        ("__proto__", JObj [("x", JNum 1)])].

Definition url : string := "https://data.gharchive.org/2024-01-01-0.json.gz".

(** [{"id":"1","type":"WatchEvent","created_at":"t","__proto__":{"x":1}}] *)
Definition proto_line : string :=
  "{" +:+ q +:+ "id" +:+ q +:+ ":" +:+ q +:+ "1" +:+ q +:+ ","
  +:+ q +:+ "type" +:+ q +:+ ":" +:+ q +:+ "WatchEvent" +:+ q +:+ ","
  +:+ q +:+ "created_at" +:+ q +:+ ":" +:+ q +:+ "t" +:+ q +:+ ","
  +:+ q +:+ "__proto__" +:+ q +:+ ":{" +:+ q +:+ "x" +:+ q +:+ ":1}}".

(** [{"type":"constructor"}] *)
Definition constructor_line : string :=
  "{" +:+ q +:+ "type" +:+ q +:+ ":" +:+ q +:+ "constructor" +:+ q +:+ "}".

(** [{"type":"StarEvent"}] *)
Definition star_line : string :=
  "{" +:+ q +:+ "type" +:+ q +:+ ":" +:+ q +:+ "StarEvent" +:+ q +:+ "}".

(** A network on which every URL redirects to itself. *)
Definition loop (u : string) : reply := Response 302 (Some u) "".

(** A network on which a URL of [n] characters is [n] redirects away
    from the file. *)
Definition chain (u : string) : reply :=
  match u with
  | "" => Response 200 None "archive"
  | String _ rest => Response 301 (Some rest) ""
  end.

(** A machine with nothing cached and no network. *)
Definition offline : World :=
  {| net := fun _ => NetworkError "getaddrinfo ENOTFOUND data.gharchive.org";
     cached_gz := None; cached_json := None;
     gunzip := fun _ => None; chunking := fun text => [text]; disk := None |}.

End Sample.

(** ** Predicates the facts are stated with *)

(** What the loader relies on for a statement and the table it writes
    to: the statement lists the table's columns, in order and once
    each, with one parameter per column; the first column is the
    primary key and the second and third must not be null. *)
Definition fits (db : Db) (stmt : Sql.Statement) : bool :=
  match db !! Sql.into stmt with
  | Some t =>
      bool_decide (Sql.cols stmt = Sql.column_names t)
      && bool_decide (NoDup (Sql.cols stmt))
      && bool_decide (Sql.params stmt = length (Sql.cols stmt))
      && bool_decide (Sql.constrained "PRIMARY KEY" t = [0%nat])
      && bool_decide (Sql.constrained "NOT NULL" t = [1%nat; 2%nat])
  | None => false
  end.

Definition is_ok {A} (r : result A) : bool :=
  match r with
  | Ok _ => true
  | Throw _ => false
  end.

(** Two stores with the same tables, column for column. *)
Definition same_shape (db db' : Db) : Prop :=
  forall name, Sql.defs <$> (db !! name) = Sql.defs <$> (db' !! name).

Definition fit_all (stmts : list (string * Sql.Statement)) (db : Db) : Prop :=
  Forall (fun ks => fits db (snd ks) = true) stmts.

Section predicates.
Variable bind_undefined : option Sql.sqlval.

(** What holds of the loader's variables after the rows [acc] have
    been pushed, starting on the store [db0]. *)
Record Inv (stmts : list (string * Sql.Statement)) (db0 : Db)
    (acc : list (string * Row)) (st : Loader) : Prop := {
  inv_count : count st = Z.of_nat (length acc);
  inv_rows : concat (flushed st) ++ batch st = map snd acc;
  inv_full : Forall (fun g => Z.of_nat (length g) = BATCH_SIZE) (flushed st);
  inv_room : Z.of_nat (length (batch st)) < BATCH_SIZE;
  inv_db : flush bind_undefined stmts (concat (flushed st)) db0 = Ok (db st);
  inv_tally : typeCounts st = tally (map fst acc);
}.

(** Rows that a table already accounts for: inserting them again is
    ignored. *)
Definition ignored (t : Sql.Table) (row : list Sql.sqlval) : bool :=
  Sql.violates_not_null t row || Sql.violates_primary_key t row.

Definition settled (db : Db) (stmt : Sql.Statement) (bound : list Sql.sqlval) : bool :=
  match db !! Sql.into stmt with
  | Some t => ignored t bound
  | None => false
  end.

Definition row_settled (stmts : list (string * Sql.Statement)) (db : Db) (row : Row) : Prop :=
  exists stmt bound,
    JS.assoc (JS.String (type row)) stmts = Some stmt
    /\ bind_arguments bind_undefined false (values row) = Some bound
    /\ length bound = Sql.params stmt
    /\ settled db stmt bound = true.

End predicates.

(** The check of one registry entry, as a computation. *)
Definition complete (schema : EventSchema) : bool :=
  bool_decide (table_columns schema = columnNames COMMON_DDL ++ columnNames (columns schema))
  && bool_decide (NoDup (table_columns schema))
  && bool_decide (Sql.insert_columns (insert_sql schema) = table_columns schema)
  && bool_decide (Sql.insert_parameters (insert_sql schema) = length (table_columns schema)).

(** The step of the loop that fills [otherFields]. *)
Definition collect (event : jvalue) (o : list (string * jvalue)) (key : string)
  : list (string * jvalue) :=
  if decide (key ∈ KNOWN_EVENT_KEYS) then o else assign o key event.[key].


(** * Facts *)

(** ** Splitting and joining *)

Section split_facts.
Import Str.
Variable sep : ascii.

Lemma split_nonempty s : split sep s <> [].
Proof.
  induction s as [|c t IH]; simpl; [done|].
  destruct (decide (c = sep)); [done|].
  destruct (split sep t); done.
Qed.

Lemma split_no_sep s : has sep s = false -> split sep s = [s].
Proof.
  induction s as [|c t IH]; simpl; [done|].
  destruct (decide (c = sep)); [done|].
  intros H. by rewrite (IH H).
Qed.

Lemma split_pieces_no_sep s : Forall (fun l => has sep l = false) (split sep s).
Proof.
  induction s as [|c t IH]; simpl.
  - by constructor.
  - destruct (decide (c = sep)).
    + by constructor.
    + destruct (split sep t) as [|h r]; [by repeat constructor; simpl; case_decide|].
      inversion_clear IH. constructor; [|done].
      simpl. by case_decide.
Qed.

Lemma join_split s : join (String sep "") (split sep s) = s.
Proof.
  induction s as [|c t IH]; simpl; [done|].
  destruct (decide (c = sep)) as [->|Hc].
  - destruct (split sep t) as [|h r] eqn:E; [by apply split_nonempty in E|].
    simpl in *. by rewrite IH.
  - destruct (split sep t) as [|h r] eqn:E; [by apply split_nonempty in E|].
    destruct r; simpl in *; by rewrite <- IH.
Qed.

Lemma pop_app d l x : pop d (l ++ [x]) = (l, x).
Proof.
  induction l as [|a l IH]; simpl; [done|].
  rewrite IH. by destruct l.
Qed.

Lemma pop_spec d l i z : l <> [] -> pop d l = (i, z) -> l = i ++ [z].
Proof.
  revert i z. induction l as [|a l IH]; intros i z Hne H; [done|].
  destruct l as [|b l].
  - simpl in H. by simplify_eq.
  - change (pop d (a :: b :: l)) with
      (let '(i, z) := pop d (b :: l) in (a :: i, z)) in H.
    destruct (pop d (b :: l)) as [i' z'] eqn:E. simplify_eq.
    simpl. f_equal. by apply IH.
Qed.

(** Splitting a concatenation: every piece of the left part but the
    last is final, and the last one continues into the right part. *)
Lemma split_app a b i z :
  pop "" (split sep a) = (i, z) ->
  split sep (a +:+ b) = i ++ split sep (z +:+ b).
Proof.
  revert i z. induction a as [|c t IH]; intros i z H.
  - simpl in H. by simplify_eq.
  - change (String c t +:+ b) with (String c (t +:+ b)).
    destruct (pop "" (split sep t)) as [i' z'] eqn:E.
    specialize (IH _ _ eq_refl).
    pose proof (pop_spec _ _ _ _ (split_nonempty t) E) as Ht.
    simpl in H |- *. destruct (decide (c = sep)) as [->|Hc].
    + rewrite Ht in H.
      change ("" :: i' ++ [z']) with (("" :: i') ++ [z']) in H.
      rewrite pop_app in H. simplify_eq. by rewrite IH.
    + rewrite IH. rewrite Ht in H. destruct i' as [|h r].
      * simpl in H. simplify_eq. simpl.
        change (String c z' +:+ b) with (String c (z' +:+ b)).
        simpl. destruct (decide (c = sep)); [done|].
        by destruct (split sep (z' +:+ b)) eqn:E2; [apply split_nonempty in E2|].
      * change (pop "" ((String c h :: r) ++ [z']) = (i, z)) in H.
        rewrite pop_app in H. by simplify_eq.
Qed.

Lemma pop_split_no_sep s i z :
  pop "" (split sep s) = (i, z) -> has sep z = false.
Proof.
  intros H. pose proof (split_pieces_no_sep s) as Hall.
  rewrite (pop_spec _ _ _ _ (split_nonempty s) H) in Hall.
  apply Forall_app in Hall as [_ Hz]. by inversion Hz.
Qed.
End split_facts.

Lemma app_nil_r_str (s : string) : s +:+ "" = s.
Proof. induction s as [|c t IH]; [done|]. unfold String.app in *. simpl. by rewrite IH. Qed.

Lemma app_assoc_str (a b c : string) : (a +:+ b) +:+ c = a +:+ (b +:+ c).
Proof. induction a as [|x a IH]; [done|]. unfold String.app in *. simpl. by rewrite IH. Qed.

(** ** The chunked line reader *)

Section lines_facts.
Import Str Lines.

(** The loop invariant: with a remainder that holds no line feed, the
    lines still to come are those of the remainder followed by the
    chunks not yet read. *)
Lemma feed_split remainder chunks :
  has LF remainder = false ->
  feed remainder chunks = split LF (remainder +:+ content chunks).
Proof.
  revert remainder. induction chunks as [|chunk rest IH]; intros r Hr.
  - simpl. rewrite app_nil_r_str. by rewrite split_no_sep.
  - simpl. unfold step.
    destruct (pop "" (split LF (r +:+ chunk))) as [lines r'] eqn:E.
    rewrite (IH r' (pop_split_no_sep _ _ _ _ E)).
    rewrite <- app_assoc_str. symmetry. by apply split_app.
Qed.

Lemma chunked_lines_split chunks : chunked_lines chunks = whole_lines (content chunks).
Proof. unfold chunked_lines, whole_lines. by rewrite feed_split. Qed.

End lines_facts.

(** ** The loader reads exactly the chunked lines *)

Section loader_lines.
Variable JSON_parse : string -> option jvalue.
Variable bind_undefined : option Sql.sqlval.
#[local] Abbreviation process := (processLine JSON_parse bind_undefined).

Lemma for_each_app {S A} (body : S -> A -> result S) s xs ys :
  for_each body s (xs ++ ys) = let! s' := for_each body s xs in for_each body s' ys.
Proof.
  revert s. induction xs as [|x xs IH]; intros s; simpl; [done|].
  destruct (body s x); simpl; [apply IH|done].
Qed.

Lemma read_chunks_feed stmts st remainder chunks :
  (let! r := read_chunks JSON_parse bind_undefined stmts st remainder chunks in
   process stmts (fst r) (snd r))
  = for_each (process stmts) st (Lines.feed remainder chunks).
Proof.
  revert st remainder. induction chunks as [|chunk rest IH]; intros st r; simpl.
  - by destruct (process stmts st r).
  - unfold Lines.step.
    destruct (Str.pop "" (Str.split Str.LF (r +:+ chunk))) as [lines r'].
    rewrite for_each_app.
    destruct (for_each (process stmts) st lines); simpl; [apply IH|done].
Qed.

Lemma loadEvents_lines chunks db :
  loadEvents JSON_parse bind_undefined chunks db
  = load_lines JSON_parse bind_undefined (Lines.chunked_lines chunks) db.
Proof.
  unfold loadEvents, load_lines, Lines.chunked_lines.
  destruct (prepareInserts db) as [stmts|]; simpl; [|done].
  rewrite <- read_chunks_feed.
  by destruct (read_chunks _ _ _ _ _ _) as [[st r]|].
Qed.

Lemma processLine_read stmts st line :
  process stmts st line
  = match read_line JSON_parse line with
    | Skipped => Ok st
    | Fails m => Throw m
    | Accepted key row => push bind_undefined stmts st key row
    end.
Proof.
  unfold processLine, read_line, push.
  destruct (decide (Str.trim line = "")); [done|].
  destruct (JSON_parse line) as [event|]; [|done].
  destruct event; try done;
    match goal with |- context [lookup_schema ?k] => by destruct (lookup_schema k) end.
Qed.

End loader_lines.

(** Joining lines that hold no separator and splitting again gives the
    lines back. *)
Lemma split_app_sep sep p s :
  Str.has sep p = false ->
  Str.split sep (p +:+ String sep s) = p :: Str.split sep s.
Proof.
  induction p as [|c p IH]; simpl; intros H.
  - change ("" +:+ String sep s) with (String sep s). simpl.
    by destruct (decide (sep = sep)).
  - destruct (decide (c = sep)); [done|].
    change (String c p +:+ String sep s) with (String c (p +:+ String sep s)). simpl.
    destruct (decide (c = sep)); [done|]. by rewrite (IH H).
Qed.

Lemma split_join sep parts :
  parts <> [] -> Forall (fun p => Str.has sep p = false) parts ->
  Str.split sep (Str.join (String sep "") parts) = parts.
Proof.
  intros Hne Hall. induction Hall as [|p parts Hp Hall IH]; [done|].
  destruct parts as [|p' parts].
  - simpl. by apply split_no_sep.
  - change (Str.join (String sep "") (p :: p' :: parts))
      with (p +:+ String sep "" +:+ Str.join (String sep "") (p' :: parts)).
    change (String sep "" +:+ Str.join (String sep "") (p' :: parts))
      with (String sep (Str.join (String sep "") (p' :: parts))).
    rewrite (split_app_sep _ _ _ Hp). f_equal. by apply IH.
Qed.

(** ** The fresh store and its prepared statements *)

Lemma createArchiveDatabase_runs : is_ok (createArchiveDatabase None) = true.
Proof. vm_compute. reflexivity. Qed.

Lemma createArchiveDatabase_fresh disk : createArchiveDatabase disk = Ok fresh_store.
Proof.
  unfold fresh_store, from_result.
  change (createArchiveDatabase disk) with (createArchiveDatabase None).
  pose proof createArchiveDatabase_runs as H.
  by destruct (createArchiveDatabase None).
Qed.

Lemma prepareInserts_runs : is_ok (prepareInserts fresh_store) = true.
Proof. vm_compute. reflexivity. Qed.

Lemma prepareInserts_fresh : prepareInserts fresh_store = Ok prepared.
Proof.
  unfold prepared, from_result. pose proof prepareInserts_runs as H.
  by destruct (prepareInserts fresh_store).
Qed.

Lemma prepared_fits : forallb (fun ks => fits fresh_store (snd ks)) prepared = true.
Proof. vm_compute. reflexivity. Qed.

Lemma prepared_keys : map fst prepared = map fst EVENT_SCHEMAS.
Proof. vm_compute. reflexivity. Qed.

Lemma prepared_tables :
  map (fun ks => Sql.into (snd ks)) prepared = map table schemas.
Proof. vm_compute. reflexivity. Qed.

Lemma fresh_tables_empty :
  forallb (fun kt => bool_decide (Sql.rows (snd kt) = [])) (map_to_list fresh_store) = true.
Proof. vm_compute. reflexivity. Qed.

(** ** Running a prepared statement *)

Section run_facts.
Variable bind_undefined : option Sql.sqlval.
#[local] Abbreviation bind_args := (bind_arguments bind_undefined false).
#[local] Abbreviation run' := (run bind_undefined).
#[local] Abbreviation flush' := (flush bind_undefined).
Import Sql.

Lemma same_shape_refl db : same_shape db db.
Proof. by intros name. Qed.

Lemma same_shape_trans db1 db2 db3 :
  same_shape db1 db2 -> same_shape db2 db3 -> same_shape db1 db3.
Proof. intros H1 H2 name. by rewrite H1. Qed.

Lemma same_shape_sym db1 db2 : same_shape db1 db2 -> same_shape db2 db1.
Proof. intros H name. by rewrite H. Qed.

Lemma fits_shape db db' stmt : same_shape db db' -> fits db stmt = fits db' stmt.
Proof.
  intros H. unfold fits. specialize (H (into stmt)).
  destruct (db !! into stmt) as [t|], (db' !! into stmt) as [t'|]; simplify_eq/=; [|done].
  unfold column_names, constrained. by rewrite H.
Qed.

Lemma prepare_shape db db' sql : same_shape db db' -> prepare db sql = prepare db' sql.
Proof.
  intros H. unfold prepare.
  destruct (strip_prefix _ sql) as [rest|]; [|done].
  specialize (H (Str.first_field rest)).
  destruct (db !! _) as [t|], (db' !! _) as [t'|]; simplify_eq/=; [|done].
  unfold column_names. by rewrite H.
Qed.

Lemma prepareInserts_shape db db' : same_shape db db' -> prepareInserts db = prepareInserts db'.
Proof.
  intros H. unfold prepareInserts.
  induction EVENT_SCHEMAS as [|[k s] rest IH]; simpl; [done|].
  by rewrite (prepare_shape _ _ _ H), IH.
Qed.

Lemma insert_or_ignore_defs row t : defs (insert_or_ignore row t) = defs t.
Proof. unfold insert_or_ignore. by destruct (_ || _). Qed.

Lemma fits_inv db stmt :
  fits db stmt = true ->
  exists t, db !! into stmt = Some t
    /\ cols stmt = column_names t
    /\ NoDup (cols stmt)
    /\ params stmt = length (cols stmt)
    /\ constrained "PRIMARY KEY" t = [0%nat]
    /\ constrained "NOT NULL" t = [1%nat; 2%nat].
Proof.
  unfold fits. destruct (db !! into stmt) as [t|]; [|done].
  rewrite !andb_true_iff, !bool_decide_eq_true.
  intros [[[[? ?] ?] ?] ?]. by exists t.
Qed.

(** A statement that lists the table's own columns writes the bound
    values as they come. *)
Lemma assoc_zip_map (names : list string) (bound : list sqlval) :
  NoDup names -> length bound = length names ->
  map (fun c => default SNull (JS.assoc c (zip names bound))) names = bound.
Proof.
  revert bound. induction names as [|c names IH]; intros [|b bound] Hnd Hlen;
    simplify_eq/=; [done|].
  destruct (decide (c = c)); [|done]. simpl. f_equal.
  inversion_clear Hnd as [|?? Hc Hnames].
  etransitivity; [|exact (IH bound Hnames Hlen)].
  apply map_ext_in. intros c' Hc'.
  destruct (decide (c = c')) as [->|]; [|done].
  exfalso. apply Hc. by apply list_elem_of_In.
Qed.

Lemma row_of_same t stmt bound :
  cols stmt = column_names t -> NoDup (cols stmt) ->
  length bound = length (cols stmt) ->
  row_of t stmt bound = bound.
Proof.
  intros Hc Hnd Hlen. unfold row_of. rewrite <- Hc. by apply assoc_zip_map.
Qed.

Lemma run_ok_inv stmt args db db' :
  fits db stmt = true -> run' stmt args db = Ok db' ->
  exists bound t,
    bind_args args = Some bound
    /\ length bound = params stmt
    /\ db !! into stmt = Some t
    /\ db' = <[into stmt := insert_or_ignore bound t]> db.
Proof.
  intros Hfit Hrun. apply fits_inv in Hfit as (t & Ht & Hc & Hnd & Hp & _).
  unfold run in Hrun. destruct (bind_args args) as [bound|]; [|done].
  destruct (length bound =? params stmt)%nat eqn:Hlen; [|done].
  apply Nat.eqb_eq in Hlen. simpl in Hrun. rewrite Ht in Hrun.
  rewrite row_of_same in Hrun by congruence.
  exists bound, t. by simplify_eq.
Qed.

Lemma run_ok_intro stmt args db bound :
  fits db stmt = true ->
  bind_args args = Some bound -> length bound = params stmt ->
  exists t, db !! into stmt = Some t
    /\ run' stmt args db = Ok (<[into stmt := insert_or_ignore bound t]> db).
Proof.
  intros Hfit Hb Hlen. apply fits_inv in Hfit as (t & Ht & Hc & Hnd & Hp & _).
  exists t. split; [done|]. unfold run. rewrite Hb.
  apply Nat.eqb_eq in Hlen as Hlen'. rewrite Hlen'. simpl. rewrite Ht.
  by rewrite row_of_same by congruence.
Qed.

Lemma insert_same_shape (db : Db) name t t' :
  db !! name = Some t -> defs t' = defs t -> same_shape db (<[name := t']> db).
Proof.
  intros Ht Hd name'. destruct (decide (name = name')) as [<-|Hne].
  - rewrite lookup_insert_eq, Ht. simpl. by rewrite Hd.
  - by rewrite lookup_insert_ne.
Qed.

Lemma run_shape stmt args db db' :
  fits db stmt = true -> run' stmt args db = Ok db' -> same_shape db db'.
Proof.
  intros Hfit Hrun.
  destruct (run_ok_inv _ _ _ _ Hfit Hrun) as (bound & t & _ & _ & Ht & ->).
  apply insert_same_shape with t; [done|]. apply insert_or_ignore_defs.
Qed.

End run_facts.

(** ** The loader's invariant *)

Lemma BATCH_SIZE_pos : 0 < BATCH_SIZE.
Proof. reflexivity. Qed.

Lemma tally_snoc keys k :
  tally (keys ++ [k]) = <[k := default 0 (tally keys !! k) + 1]> (tally keys).
Proof. unfold tally. by rewrite foldl_app. Qed.

Lemma tally_lookup keys k :
  default 0 (tally keys !! k) = Z.of_nat (length (filter (fun k' => k' = k) keys)).
Proof.
  induction keys as [|k' keys IH] using rev_ind; [done|].
  rewrite tally_snoc, filter_app, length_app, Nat2Z.inj_add, <- IH.
  destruct (decide (k' = k)) as [->|Hne].
  - rewrite lookup_insert_eq. rewrite filter_cons_True by done. simpl. lia.
  - rewrite lookup_insert_ne by done. rewrite filter_cons_False by done. simpl. lia.
Qed.

Section loader_facts.
Variable JSON_parse : string -> option jvalue.
Variable bind_undefined : option Sql.sqlval.
#[local] Abbreviation process := (processLine JSON_parse bind_undefined).
#[local] Abbreviation flush' := (flush bind_undefined).
#[local] Abbreviation push' := (push bind_undefined).
#[local] Abbreviation read := (read_line JSON_parse).
#[local] Abbreviation accepted' := (accepted JSON_parse).
#[local] Abbreviation can_run' := (can_run bind_undefined).

Lemma fit_all_shape stmts db db' : same_shape db db' -> fit_all stmts db -> fit_all stmts db'.
Proof.
  intros Hs Hall. eapply Forall_impl; [exact Hall|]. intros ks H. simpl in *.
  by rewrite <- (fits_shape _ _ _ Hs).
Qed.

Lemma assoc_elem_of {A} k (l : list (string * A)) v : JS.assoc k l = Some v -> (k, v) ∈ l.
Proof.
  induction l as [|[k' v'] l IH]; simpl; [done|].
  destruct (decide (k' = k)) as [->|]; intros H.
  - simplify_eq. left.
  - right. by apply IH.
Qed.

Lemma assoc_fit stmts db key stmt :
  fit_all stmts db -> JS.assoc key stmts = Some stmt -> fits db stmt = true.
Proof.
  intros Hall Hk. apply assoc_elem_of in Hk.
  by apply (proj1 (Forall_forall _ _) Hall (key, stmt)).
Qed.

Lemma flush_app stmts a b db :
  flush' stmts (a ++ b) db = let! db' := flush' stmts a db in flush' stmts b db'.
Proof. apply for_each_app. Qed.

Lemma flush_shape stmts rows db db' :
  fit_all stmts db -> flush' stmts rows db = Ok db' -> same_shape db db'.
Proof.
  revert db. induction rows as [|row rows IH]; intros db Hfit H;
    unfold flush in H; simpl in H; fold (flush' stmts) in H.
  - simplify_eq. apply same_shape_refl.
  - destruct (JS.assoc _ stmts) as [stmt|] eqn:Hk; [|done].
    destruct (run bind_undefined stmt (values row) db) as [db1|] eqn:Hrun; [|done].
    simpl in H.
    pose proof (run_shape _ _ _ _ _ (assoc_fit _ _ _ _ Hfit Hk) Hrun) as Hs.
    eapply same_shape_trans; [exact Hs|].
    apply IH; [|done]. by apply (fit_all_shape _ db).
Qed.

Lemma flush_runs stmts rows db :
  fit_all stmts db -> Forall (fun row => can_run' stmts row = true) rows ->
  exists db', flush' stmts rows db = Ok db'.
Proof.
  revert db. induction rows as [|row rows IH]; intros db Hfit Hrows.
  - by exists db.
  - inversion_clear Hrows as [|?? Hrow Hrest].
    unfold flush. simpl. fold (flush' stmts).
    unfold can_run in Hrow.
    destruct (JS.assoc _ stmts) as [stmt|] eqn:Hk; [|done].
    destruct (bind_arguments _ _ _) as [bound|] eqn:Hb; [|done].
    apply Nat.eqb_eq in Hrow.
    pose proof (assoc_fit _ _ _ _ Hfit Hk) as Hf.
    destruct (run_ok_intro bind_undefined _ _ _ _ Hf Hb Hrow) as (t & Ht & Hrun).
    rewrite Hrun. simpl. apply IH; [|done].
    apply (fit_all_shape _ db); [|done].
    by apply (run_shape bind_undefined stmt (values row)).
Qed.

Lemma Inv_init stmts db0 :
  Inv bind_undefined stmts db0 [] {| count := 0; batch := []; typeCounts := ∅; db := db0; flushed := [] |}.
Proof. split; simpl; done. Qed.

Lemma push_Inv stmts db0 acc st key row st' :
  Inv bind_undefined stmts db0 acc st -> push' stmts st key row = Ok st' ->
  Inv bind_undefined stmts db0 (acc ++ [(key, row)]) st'.
Proof.
  intros [Hc Hr Hf Hb Hd Ht]. unfold push, flush_batch. simpl.
  assert (Hlen : Z.of_nat (length (batch st ++ [row])) = Z.of_nat (length (batch st)) + 1).
  { rewrite length_app. simpl. lia. }
  destruct (BATCH_SIZE <=? Z.of_nat (length (batch st ++ [row]))) eqn:Hfull.
  - apply Z.leb_le in Hfull.
    destruct (flush bind_undefined stmts (batch st ++ [row]) (db st)) as [db'|] eqn:Hfl;
      simpl; [|done].
    intros ?; simplify_eq. split; simpl.
    + rewrite Hc, length_app. simpl. lia.
    + rewrite concat_app, map_app. simpl. rewrite !app_nil_r, <- Hr. by rewrite app_assoc.
    + apply Forall_app. split; [done|]. constructor; [lia|constructor].
    + apply BATCH_SIZE_pos.
    + rewrite concat_app. simpl. rewrite app_nil_r, flush_app, Hd. exact Hfl.
    + rewrite map_app. change (map fst [(key, row)]) with [key].
      by rewrite tally_snoc, Ht.
  - apply Z.leb_gt in Hfull. intros ?; simplify_eq. split; simpl.
    + rewrite Hc, length_app. simpl. lia.
    + rewrite map_app. simpl. rewrite <- Hr. by rewrite app_assoc.
    + done.
    + done.
    + done.
    + rewrite map_app. change (map fst [(key, row)]) with [key].
      by rewrite tally_snoc, Ht.
Qed.

Lemma accepted_cons line lines :
  accepted' (line :: lines)
  = match read line with
    | Accepted key row => (key, row) :: accepted' lines
    | _ => accepted' lines
    end.
Proof. unfold accepted. simpl. by destruct (read_line JSON_parse line). Qed.

Lemma for_each_Inv stmts db0 lines : forall acc st st',
  Inv bind_undefined stmts db0 acc st -> for_each (process stmts) st lines = Ok st' ->
  Inv bind_undefined stmts db0 (acc ++ accepted' lines) st'.
Proof.
  induction lines as [|line lines IH]; intros acc st st' Hinv H; simpl in H.
  - simplify_eq. unfold accepted. simpl. by rewrite app_nil_r.
  - rewrite processLine_read in H. rewrite accepted_cons.
    destruct (read_line JSON_parse line) as [|key row|m] eqn:Hread; simpl in H.
    + by apply (IH _ st).
    + destruct (push bind_undefined stmts st key row) as [st1|] eqn:Hpush; [|done].
      simpl in H. pose proof (push_Inv _ _ _ _ _ _ _ Hinv Hpush) as Hinv1.
      specialize (IH _ _ _ Hinv1 H). by rewrite <- app_assoc in IH.
    + done.
Qed.

Lemma push_runs stmts st key row :
  fit_all stmts (db st) ->
  Forall (fun r => can_run' stmts r = true) (batch st) ->
  can_run' stmts row = true ->
  exists st', push' stmts st key row = Ok st'
    /\ fit_all stmts (db st')
    /\ Forall (fun r => can_run' stmts r = true) (batch st').
Proof.
  intros Hfit Hbatch Hrow. unfold push, flush_batch. simpl.
  destruct (BATCH_SIZE <=? _).
  - assert (Hall : Forall (fun r => can_run' stmts r = true) (batch st ++ [row])).
    { apply Forall_app. split; [done|]. by constructor. }
    destruct (flush_runs stmts _ _ Hfit Hall) as [db' Hfl].
    rewrite Hfl. simpl. eexists. split; [done|]. simpl. split; [|constructor].
    apply (fit_all_shape _ (db st)); [|done]. by apply (flush_shape stmts (batch st ++ [row])).
  - eexists. split; [done|]. simpl. split; [done|].
    apply Forall_app. split; [done|]. by constructor.
Qed.

Lemma for_each_runs stmts lines : forall st,
  fit_all stmts (db st) ->
  Forall (fun r => can_run' stmts r = true) (batch st) ->
  Forall (fun line => takes JSON_parse bind_undefined stmts line = true) lines ->
  exists st', for_each (process stmts) st lines = Ok st'
    /\ fit_all stmts (db st')
    /\ Forall (fun r => can_run' stmts r = true) (batch st').
Proof.
  induction lines as [|line lines IH]; intros st Hfit Hbatch Hlines.
  - exists st. repeat split; done.
  - inversion_clear Hlines as [|?? Hline Hrest].
    change (for_each (process stmts) st (line :: lines))
      with (let! s' := process stmts st line in for_each (process stmts) s' lines).
    rewrite processLine_read. unfold takes in Hline.
    destruct (read_line JSON_parse line) as [|key' row|m]; [| |done].
    + apply IH; done.
    + destruct (push_runs stmts st key' row Hfit Hbatch Hline) as (st1 & Hpush & Hfit1 & Hbatch1).
      rewrite Hpush. simpl. by apply IH.
Qed.

Lemma accepted_of_type key lines :
  Forall (fun line => of_type JSON_parse key line = true) lines ->
  map fst (accepted' lines) = replicate (length (accepted' lines)) key.
Proof.
  induction 1 as [|line lines Hline _ IH]; [done|].
  rewrite accepted_cons. unfold of_type in Hline.
  destruct (read_line JSON_parse line) as [|key' row|m]; [done| |done].
  apply bool_decide_eq_true in Hline. subst key'. simpl. by rewrite IH.
Qed.

Lemma length_concat_full (groups : list (list Row)) :
  Forall (fun g => Z.of_nat (length g) = BATCH_SIZE) groups ->
  Z.of_nat (length (concat groups)) = BATCH_SIZE * Z.of_nat (length groups).
Proof.
  induction 1 as [|g groups Hg _ IH]; simpl; [lia|].
  rewrite length_app. lia.
Qed.

(** What a completed load leaves, in terms of the rows its lines
    yield. *)
Lemma load_lines_inv stmts lines db0 st :
  prepareInserts db0 = Ok stmts ->
  load_lines JSON_parse bind_undefined lines db0 = Ok st ->
  count st = Z.of_nat (length (accepted' lines))
  /\ typeCounts st = tally (map fst (accepted' lines))
  /\ concat (flushed st) = map snd (accepted' lines)
  /\ batches (flushed st)
  /\ flush' stmts (map snd (accepted' lines)) db0 = Ok (db st).
Proof.
  intros Hprep. unfold load_lines. rewrite Hprep. simpl.
  destruct (for_each _ _ lines) as [st1|] eqn:Hrun; simpl; [|done].
  destruct (for_each_Inv stmts db0 lines _ _ _ (Inv_init stmts db0) Hrun)
    as [Hc Hr Hf Hb Hd Ht]. simpl in *.
  destruct (0 <? length (batch st1))%nat eqn:Hlast.
  - apply Nat.ltb_lt in Hlast. unfold flush_batch.
    destruct (flush bind_undefined stmts (batch st1) (db st1)) as [db'|] eqn:Hfl;
      simpl; [|done].
    intros ?; simplify_eq. simpl.
    assert (Hcat : concat (flushed st1 ++ [batch st1]) = map snd (accepted' lines)).
    { rewrite concat_app. simpl. by rewrite app_nil_r. }
    repeat split; try done.
    + exists (flushed st1), [batch st1]. repeat split; [done|]. right.
      exists (batch st1). split; [done|lia].
    + rewrite <- Hr, flush_app, Hd. exact Hfl.
  - apply Nat.ltb_ge in Hlast. intros ?; simplify_eq.
    assert (Hnil : batch st = []) by (destruct (batch st); [done|simpl in Hlast; lia]).
    rewrite Hnil, app_nil_r in Hr.
    repeat split; try done.
    + exists (flushed st), []. rewrite app_nil_r. repeat split; [done|]. by left.
    + by rewrite <- Hr.
Qed.

(** A load whose lines are all taken runs to its end. *)
Lemma load_lines_runs stmts lines db0 :
  prepareInserts db0 = Ok stmts -> fit_all stmts db0 ->
  Forall (fun line => takes JSON_parse bind_undefined stmts line = true) lines ->
  exists st, load_lines JSON_parse bind_undefined lines db0 = Ok st.
Proof.
  intros Hprep Hfit Hlines. unfold load_lines. rewrite Hprep. simpl.
  destruct (for_each_runs stmts lines
              {| count := 0; batch := []; typeCounts := ∅; db := db0; flushed := [] |}
              Hfit (Forall_nil_2 _) Hlines)
    as (st1 & Hrun & Hfit1 & Hbatch1).
  rewrite Hrun. simpl.
  destruct (0 <? length (batch st1))%nat; [|by eexists].
  unfold flush_batch.
  destruct (flush_runs stmts _ _ Hfit1 Hbatch1) as [db' Hfl].
  rewrite Hfl. simpl. by eexists.
Qed.

Lemma batches_length groups :
  batches groups ->
  Z.of_nat (length (concat groups)) <= BATCH_SIZE * Z.of_nat (length groups)
  /\ Forall (fun g => 0 < Z.of_nat (length g) <= BATCH_SIZE) groups.
Proof.
  intros (full & last & -> & Hfull & Hlast).
  rewrite concat_app, !length_app, !Nat2Z.inj_add, (length_concat_full _ Hfull).
  pose proof BATCH_SIZE_pos. split.
  - destruct Hlast as [->|(g & -> & Hg)]; simpl; [lia|].
    rewrite app_nil_r. lia.
  - apply Forall_app. split.
    + eapply Forall_impl; [exact Hfull|]. simpl. lia.
    + destruct Hlast as [->|(g & -> & Hg)]; [constructor|].
      constructor; [lia|constructor].
Qed.

Lemma tally_replicate n key :
  tally (replicate (S n) key) = {[ key := Z.of_nat (S n) ]}.
Proof.
  induction n as [|n IH].
  - unfold tally. simpl. by rewrite lookup_empty.
  - rewrite replicate_S_end, tally_snoc, IH, lookup_singleton_eq. simpl.
    rewrite insert_singleton_eq. f_equal. lia.
Qed.

(** A flush that went through ran a statement for every row. *)
Lemma flush_can_run stmts rows db db' :
  fit_all stmts db -> flush' stmts rows db = Ok db' ->
  Forall (fun row => can_run' stmts row = true) rows.
Proof.
  revert db. induction rows as [|row rows IH]; intros db Hfit H; [constructor|].
  unfold flush in H; simpl in H; fold (flush' stmts) in H.
  destruct (JS.assoc _ stmts) as [stmt|] eqn:Hs; [|done].
  destruct (run bind_undefined stmt (values row) db) as [db1|] eqn:Hrun; [|done].
  simpl in H. pose proof (assoc_fit _ _ _ _ Hfit Hs) as Hf.
  destruct (run_ok_inv _ _ _ _ _ Hf Hrun) as (bound & t & Hb & Hlen & _ & _).
  constructor.
  - unfold can_run. rewrite Hs, Hb. by apply Nat.eqb_eq.
  - apply (IH db1); [|done].
    apply (fit_all_shape _ db); [|done]. by apply (run_shape bind_undefined stmt (values row)).
Qed.

Lemma for_each_no_fail stmts lines : forall st st',
  for_each (process stmts) st lines = Ok st' ->
  Forall (fun line => forall m, read line <> Fails m) lines.
Proof.
  induction lines as [|line lines IH]; intros st st' H; [constructor|].
  simpl in H. rewrite processLine_read in H.
  destruct (read_line JSON_parse line) as [|key row|m] eqn:E; simpl in H.
  - constructor; [by rewrite E|]. by apply (IH st st').
  - destruct (push bind_undefined stmts st key row) as [st1|]; [|done].
    constructor; [by rewrite E|]. by apply (IH st1 st').
  - done.
Qed.

(** The lines of a completed load were all taken. *)
Lemma load_lines_takes stmts lines db0 st :
  prepareInserts db0 = Ok stmts -> fit_all stmts db0 ->
  load_lines JSON_parse bind_undefined lines db0 = Ok st ->
  Forall (fun line => takes JSON_parse bind_undefined stmts line = true) lines.
Proof.
  intros Hprep Hfit Hload.
  destruct (load_lines_inv _ _ _ _ Hprep Hload) as (_ & _ & _ & _ & Hfl).
  pose proof (flush_can_run _ _ _ _ Hfit Hfl) as Hrows.
  unfold load_lines in Hload. rewrite Hprep in Hload. simpl in Hload.
  destruct (for_each _ _ lines) as [st1|] eqn:Hrun; [|done].
  pose proof (for_each_no_fail _ _ _ _ Hrun) as Hnf. clear -Hrows Hnf.
  induction lines as [|line lines IH]; [constructor|].
  inversion_clear Hnf as [|?? Hline Hrest]. rewrite accepted_cons in Hrows.
  unfold takes. destruct (read_line JSON_parse line) as [|key row|m] eqn:E.
  - constructor; [by rewrite E|]. by apply IH.
  - simpl in Hrows. inversion_clear Hrows. constructor; [by rewrite E|]. by apply IH.
  - by destruct (Hline m).
Qed.

End loader_facts.

(** ** Row identity: the primary key under [INSERT OR IGNORE] *)

Section key_facts.
Variable JSON_parse : string -> option jvalue.
Variable bind_undefined : option Sql.sqlval.
#[local] Abbreviation bind_args := (bind_arguments bind_undefined false).
#[local] Abbreviation run' := (run bind_undefined).
#[local] Abbreviation flush' := (flush bind_undefined).
Import Sql.

Lemma bind_keyed s rest bound :
  bind_args (Some (JStr s) :: rest) = Some bound ->
  exists tail, bound = SText s :: tail.
Proof.
  simpl. destruct (bind_arguments bind_undefined false rest) as [ys|]; [|done].
  intros ?; simplify_eq. by eexists.
Qed.

Lemma existsb_row_id x rs :
  existsb (fun r => bool_decide (cell r 0 = x)) rs = true <-> x ∈ map row_id rs.
Proof.
  rewrite existsb_exists, list_elem_of_fmap. split.
  - intros (r & Hin & Hr). apply bool_decide_eq_true in Hr.
    exists r. split; [done|]. by apply list_elem_of_In.
  - intros (r & -> & Hin). exists r. split; [by apply list_elem_of_In|].
    by apply bool_decide_eq_true.
Qed.

Lemma violates_primary_key_first t row :
  constrained "PRIMARY KEY" t = [0%nat] ->
  violates_primary_key t row
  = bool_decide (row_id row <> SNull)
    && existsb (fun r => bool_decide (cell r 0 = cell row 0)) (rows t).
Proof. intros H. unfold violates_primary_key. rewrite H. simpl. by rewrite orb_false_r. Qed.

Lemma insert_or_ignore_unique t row :
  constrained "PRIMARY KEY" t = [0%nat] -> row_id row <> SNull ->
  NoDup (map row_id (rows t)) ->
  NoDup (map row_id (rows (insert_or_ignore row t))).
Proof.
  intros Hpk Hid Hnd. unfold insert_or_ignore.
  destruct (violates_not_null t row); [done|]. simpl.
  rewrite (violates_primary_key_first _ _ Hpk).
  rewrite (bool_decide_eq_true_2 _ Hid). simpl.
  destruct (existsb _ (rows t)) eqn:Hex; [done|]. simpl.
  rewrite map_app. simpl. apply NoDup_app. split; [done|]. split.
  - intros x Hx Hx'. apply list_elem_of_singleton in Hx'. subst x.
    apply existsb_row_id in Hx. unfold row_id in Hx. congruence.
  - apply NoDup_singleton.
Qed.

Lemma run_unique stmt row db db' :
  fits db stmt = true -> keyed row -> unique_ids db ->
  run' stmt (values row) db = Ok db' -> unique_ids db'.
Proof.
  intros Hfit (s & rest & Hv) Huniq Hrun.
  destruct (run_ok_inv _ _ _ _ _ Hfit Hrun) as (bound & t & Hb & Hlen & Ht & ->).
  apply fits_inv in Hfit as (t' & Ht' & _ & _ & _ & Hpk & _).
  rewrite Ht in Ht'. simplify_eq.
  rewrite Hv in Hb. apply bind_keyed in Hb as [tail ->].
  intros name t1. destruct (decide (into stmt = name)) as [<-|Hne].
  - rewrite lookup_insert_eq. intros ?; simplify_eq.
    apply insert_or_ignore_unique; [done|done|]. by apply (Huniq (into stmt)).
  - rewrite lookup_insert_ne by done. apply Huniq.
Qed.

Lemma flush_unique stmts rows db db' :
  fit_all stmts db -> Forall keyed rows -> unique_ids db ->
  flush' stmts rows db = Ok db' -> unique_ids db'.
Proof.
  revert db. induction rows as [|row rows IH]; intros db Hfit Hk Hu H;
    unfold flush in H; simpl in H; fold (flush' stmts) in H.
  - by simplify_eq.
  - inversion_clear Hk as [|?? Hrow Hrest].
    destruct (JS.assoc _ stmts) as [stmt|] eqn:Hs; [|done].
    destruct (run bind_undefined stmt (values row) db) as [db1|] eqn:Hrun; [|done].
    simpl in H. pose proof (assoc_fit _ _ _ _ Hfit Hs) as Hf.
    apply (IH db1); [|done| |done].
    + apply (fit_all_shape _ db); [|done]. by apply (run_shape bind_undefined stmt (values row)).
    + by apply (run_unique stmt row db).
Qed.

Lemma lookup_schema_own key schema :
  lookup_schema key = Own schema -> JS.assoc key EVENT_SCHEMAS = Some schema.
Proof.
  unfold lookup_schema. destruct (JS.assoc key EVENT_SCHEMAS); [congruence|].
  destruct (decide _); discriminate.
Qed.

Lemma lookup_schema_undefined : lookup_schema "undefined" = Absent.
Proof. vm_compute. reflexivity. Qed.

(** Only an object carries a type tag of the registry. *)
Lemma tagged_object event schema :
  lookup_schema (JS.String event.["type"]) = Own schema ->
  exists fields, event = JObj fields.
Proof.
  destruct event as [| | | | |fields]; [..|by eexists];
    intros H; exfalso;
    change (lookup_schema "undefined" = Own schema) in H;
    rewrite lookup_schema_undefined in H; discriminate H.
Qed.

Lemma read_line_keyed line key row :
  read_line JSON_parse line = Accepted key row ->
  keyed row /\ key = JS.String (type row)
  /\ is_Some (JS.assoc key EVENT_SCHEMAS)
  /\ exists fields, JSON_parse line = Some (JObj fields).
Proof.
  unfold read_line. destruct (decide _); [discriminate|].
  destruct (JSON_parse line) as [event|]; [|discriminate].
  destruct (lookup_schema (JS.String event.["type"])) as [schema| |] eqn:E.
  - destruct (tagged_object _ _ E) as [fields ->].
    apply lookup_schema_own in E.
    intros H. injection H as <- <-. simpl. repeat split.
    + by eexists _, _.
    + by eexists.
    + by eexists.
  - destruct event; discriminate.
  - destruct event; discriminate.
Qed.

Lemma accepted_keyed lines : Forall (fun kr => keyed (snd kr)) (accepted JSON_parse lines).
Proof.
  induction lines as [|line lines IH]; [constructor|].
  rewrite accepted_cons. destruct (read_line JSON_parse line) eqn:E; [done| |done].
  constructor; [|done]. by apply read_line_keyed in E as [? _].
Qed.

(** *** Rows that a table already accounts for *)

Lemma insert_or_ignore_ignored t row : ignored t row = true -> insert_or_ignore row t = t.
Proof. unfold insert_or_ignore, ignored. by intros ->. Qed.

Lemma ignored_after_insert t row :
  constrained "PRIMARY KEY" t = [0%nat] -> row_id row <> SNull ->
  ignored (insert_or_ignore row t) row = true.
Proof.
  intros Hpk Hid. unfold insert_or_ignore.
  destruct (violates_not_null t row || violates_primary_key t row) eqn:E; [done|].
  unfold ignored. apply orb_true_iff. right.
  rewrite violates_primary_key_first by done.
  rewrite (bool_decide_eq_true_2 _ Hid). simpl.
  rewrite existsb_app. simpl. rewrite (bool_decide_eq_true_2 _ eq_refl).
  by rewrite orb_true_r.
Qed.

Lemma ignored_mono t row other :
  ignored t row = true -> ignored (insert_or_ignore other t) row = true.
Proof.
  unfold insert_or_ignore.
  destruct (violates_not_null t other || violates_primary_key t other); [done|].
  unfold ignored. rewrite !orb_true_iff. intros [H|H]; [by left|right].
  unfold violates_primary_key in *. simpl.
  apply existsb_exists in H as (i & Hi & Hrow). apply existsb_exists.
  exists i. split; [done|].
  apply andb_true_iff in Hrow as [Hnn Hex]. apply andb_true_iff. split; [done|].
  rewrite existsb_app. by rewrite Hex.
Qed.

Lemma run_settles stmt row db db' :
  fits db stmt = true -> keyed row -> run' stmt (values row) db = Ok db' ->
  exists bound, bind_args (values row) = Some bound
    /\ length bound = params stmt /\ settled db' stmt bound = true.
Proof.
  intros Hfit (s & rest & Hv) Hrun.
  destruct (run_ok_inv _ _ _ _ _ Hfit Hrun) as (bound & t & Hb & Hlen & Ht & ->).
  apply fits_inv in Hfit as (t' & Ht' & _ & _ & _ & Hpk & _).
  rewrite Ht in Ht'. simplify_eq.
  exists bound. repeat split; [done..|].
  unfold settled. rewrite lookup_insert_eq.
  rewrite Hv in Hb. apply bind_keyed in Hb as [tail ->].
  by apply ignored_after_insert.
Qed.

Lemma run_keeps_settled stmt2 args db db' stmt bound :
  fits db stmt2 = true -> run' stmt2 args db = Ok db' ->
  settled db stmt bound = true -> settled db' stmt bound = true.
Proof.
  intros Hfit Hrun. destruct (run_ok_inv _ _ _ _ _ Hfit Hrun) as (b2 & t & _ & _ & Ht & ->).
  unfold settled. destruct (decide (into stmt2 = into stmt)) as [Heq|Hne].
  - rewrite <- Heq, lookup_insert_eq, Ht. apply ignored_mono.
  - by rewrite lookup_insert_ne.
Qed.

Lemma run_settled stmt args db bound :
  fits db stmt = true -> bind_args args = Some bound -> length bound = params stmt ->
  settled db stmt bound = true -> run' stmt args db = Ok db.
Proof.
  intros Hfit Hb Hlen Hs.
  destruct (run_ok_intro _ _ _ _ _ Hfit Hb Hlen) as (t & Ht & ->).
  unfold settled in Hs. rewrite Ht in Hs.
  rewrite insert_or_ignore_ignored by done. by rewrite insert_id.
Qed.

Lemma flush_keeps_settled stmts rows row : forall db db',
  fit_all stmts db -> flush' stmts rows db = Ok db' ->
  row_settled bind_undefined stmts db row -> row_settled bind_undefined stmts db' row.
Proof.
  induction rows as [|r rows IH]; intros db db' Hfit H Hrow;
    unfold flush in H; simpl in H; fold (flush' stmts) in H.
  - by simplify_eq.
  - destruct (JS.assoc _ stmts) as [stmt|] eqn:Hs; [|done].
    destruct (run bind_undefined stmt (values r) db) as [db1|] eqn:Hrun; [|done].
    simpl in H. pose proof (assoc_fit _ _ _ _ Hfit Hs) as Hf.
    apply (IH db1 db'); [|done|].
    + apply (fit_all_shape _ db); [|done]. by apply (run_shape bind_undefined stmt (values r)).
    + destruct Hrow as (stmt' & bound & ? & ? & ? & Hset).
      exists stmt', bound. repeat split; [done..|].
      by apply (run_keeps_settled stmt (values r) db).
Qed.

Lemma flush_settles stmts rows : forall db db',
  fit_all stmts db -> Forall keyed rows -> flush' stmts rows db = Ok db' ->
  Forall (row_settled bind_undefined stmts db') rows.
Proof.
  induction rows as [|r rows IH]; intros db db' Hfit Hk H; [constructor|].
  unfold flush in H; simpl in H; fold (flush' stmts) in H.
  inversion_clear Hk as [|?? Hr Hrest].
  destruct (JS.assoc _ stmts) as [stmt|] eqn:Hs; [|done].
  destruct (run bind_undefined stmt (values r) db) as [db1|] eqn:Hrun; [|done].
  simpl in H. pose proof (assoc_fit _ _ _ _ Hfit Hs) as Hf.
  assert (Hfit1 : fit_all stmts db1).
  { apply (fit_all_shape _ db); [|done]. by apply (run_shape bind_undefined stmt (values r)). }
  constructor; [|by apply (IH db1)].
  apply (flush_keeps_settled stmts rows r db1 db'); [done..|].
  destruct (run_settles _ _ _ _ Hf Hr Hrun) as (bound & ? & ? & ?).
  by exists stmt, bound.
Qed.

Lemma flush_settled stmts rows db :
  fit_all stmts db -> Forall (row_settled bind_undefined stmts db) rows -> flush' stmts rows db = Ok db.
Proof.
  intros Hfit. induction 1 as [|r rows (stmt & bound & Hs & Hb & Hlen & Hset) _ IH]; [done|].
  unfold flush. simpl. fold (flush' stmts). rewrite Hs.
  rewrite (run_settled _ _ _ _ (assoc_fit _ _ _ _ Hfit Hs) Hb Hlen Hset). exact IH.
Qed.

(** *** Rows with fresh identifiers are all stored *)

Lemma insert_or_ignore_new t row :
  constrained "PRIMARY KEY" t = [0%nat] ->
  constrained "NOT NULL" t = [1%nat; 2%nat] ->
  cell row 1 <> SNull -> cell row 2 <> SNull ->
  row_id row ∉ map row_id (rows t) ->
  insert_or_ignore row t = {| defs := defs t; rows := rows t ++ [row] |}.
Proof.
  intros Hpk Hnn H1 H2 Hnew. unfold insert_or_ignore.
  assert (violates_not_null t row = false) as ->.
  { unfold violates_not_null. rewrite Hnn. simpl.
    by rewrite !bool_decide_eq_false_2. }
  rewrite violates_primary_key_first by done.
  destruct (existsb _ (rows t)) eqn:Hex.
  - by apply existsb_row_id in Hex.
  - by rewrite andb_false_r.
Qed.

Lemma flush_stores_new stmts stmt rs : forall db db' t,
  fit_all stmts db ->
  Forall (fun row => JS.assoc (JS.String (type row)) stmts = Some stmt) rs ->
  db !! into stmt = Some t ->
  flush' stmts rs db = Ok db' ->
  let bs := map (bound_values bind_undefined) rs in
  NoDup (map row_id (Sql.rows t ++ bs)) ->
  Forall (fun b => cell b 1 <> SNull /\ cell b 2 <> SNull) bs ->
  exists t', db' !! into stmt = Some t' /\ Sql.rows t' = Sql.rows t ++ bs.
Proof.
  induction rs as [|r rs IH]; intros db db' t Hfit Hst Ht H bs Hnd Hnn;
    unfold flush in H; simpl in H; fold (flush' stmts) in H.
  - simplify_eq. exists t. by rewrite app_nil_r.
  - inversion_clear Hst as [|?? Hs Hrest]. rewrite Hs in H.
    destruct (run bind_undefined stmt (values r) db) as [db1|] eqn:Hrun; [|done].
    simpl in H. pose proof (assoc_fit _ _ _ _ Hfit Hs) as Hf.
    destruct (run_ok_inv _ _ _ _ _ Hf Hrun) as (bound & t0 & Hb & Hlen & Ht0 & ->).
    rewrite Ht in Ht0. simplify_eq.
    apply fits_inv in Hf as (t' & Ht' & _ & _ & _ & Hpk & Hnotnull).
    rewrite Ht in Ht'. simplify_eq.
    assert (Hbv : bound_values bind_undefined r = bound).
    { unfold bound_values. by rewrite Hb. }
    subst bs. simpl in Hnd, Hnn. rewrite Hbv in Hnd, Hnn.
    inversion_clear Hnn as [|?? [H1 H2] Hnn'].
    assert (Hnew : row_id bound ∉ map row_id (Sql.rows t')).
    { rewrite map_app in Hnd. apply NoDup_app in Hnd as (_ & Hdis & _).
      intros Hin. apply (Hdis _ Hin). simpl. left. }
    rewrite (insert_or_ignore_new _ _ Hpk Hnotnull H1 H2 Hnew) in H.
    edestruct (IH (<[into stmt := {| defs := defs t'; rows := Sql.rows t' ++ [bound] |}]> db)
                 db' {| defs := defs t'; rows := Sql.rows t' ++ [bound] |})
      as (t1 & Ht1 & Hrows1); [|done|apply lookup_insert_eq|done| | |].
    + apply (fit_all_shape _ db); [|done].
      by apply (insert_same_shape db (into stmt) t').
    + simpl. rewrite <- app_assoc. exact Hnd.
    + exact Hnn'.
    + exists t1. split; [done|]. rewrite Hrows1. simpl. by rewrite Hbv, <- app_assoc.
Qed.

End key_facts.

(** ** The loader on a fresh store *)

#[global] Opaque fresh_store prepared.

Lemma prepared_fit_all : fit_all prepared fresh_store.
Proof.
  apply Forall_forall. intros ks Hin.
  pose proof prepared_fits as H. rewrite forallb_forall in H.
  apply H. exact (proj1 (list_elem_of_In _ _) Hin).
Qed.

Lemma fresh_unique_ids : unique_ids fresh_store.
Proof.
  intros name t Ht. pose proof fresh_tables_empty as H.
  rewrite forallb_forall in H.
  specialize (H (name, t)). simpl in H.
  rewrite bool_decide_eq_true in H. rewrite H; [constructor|].
  exact (proj1 (list_elem_of_In _ _) (proj2 (elem_of_map_to_list _ _ _) Ht)).
Qed.

Lemma registry_prepared :
  forallb (fun ks =>
             match JS.assoc (fst ks) prepared, fresh_store !! table (snd ks) with
             | Some stmt, Some t =>
                 bool_decide (Sql.into stmt = table (snd ks)) && bool_decide (Sql.rows t = [])
             | _, _ => false
             end) EVENT_SCHEMAS = true.
Proof. vm_compute. reflexivity. Qed.

Lemma prepared_for key schema :
  JS.assoc key EVENT_SCHEMAS = Some schema ->
  exists stmt t,
    JS.assoc key prepared = Some stmt /\ Sql.into stmt = table schema
    /\ fresh_store !! table schema = Some t /\ Sql.rows t = [].
Proof.
  intros Hk. apply assoc_elem_of in Hk.
  pose proof registry_prepared as H. rewrite forallb_forall in H.
  specialize (H (key, schema)). simpl in H.
  assert (Hin : In (key, schema) EVENT_SCHEMAS)
    by exact (proj1 (list_elem_of_In _ _) Hk).
  specialize (H Hin).
  destruct (JS.assoc key prepared) as [stmt|]; [|discriminate H].
  destruct (fresh_store !! table schema) as [t|]; [|discriminate H].
  exists stmt, t.
  apply andb_true_iff in H as [H1 H2].
  apply bool_decide_eq_true in H1, H2. auto.
Qed.

Section loader_claims.
Variable JSON_parse : string -> option jvalue.
Variable bind_undefined : option Sql.sqlval.

Lemma ingest_load_lines disk chunks :
  ingest JSON_parse bind_undefined disk chunks
  = load_lines JSON_parse bind_undefined (Lines.chunked_lines chunks) fresh_store.
Proof.
  unfold ingest. rewrite createArchiveDatabase_fresh. simpl. apply loadEvents_lines.
Qed.

(** A line is counted exactly when it yields a row, and the row's key
    is the line's type tag. *)
Lemma lookup_schema_registered key :
  is_Some (JS.assoc key EVENT_SCHEMAS) -> exists schema, lookup_schema key = Own schema.
Proof. intros [schema H]. exists schema. unfold lookup_schema. by rewrite H. Qed.

Lemma undefined_unregistered : JS.assoc "undefined" EVENT_SCHEMAS = None.
Proof. vm_compute. reflexivity. Qed.

Lemma counted_read line :
  counted JSON_parse line = true <->
  exists row, read_line JSON_parse line = Accepted (tag JSON_parse line) row.
Proof.
  unfold counted, read_line, tag. split.
  - intros H. apply andb_true_iff in H as [Hblank Hreg].
    apply bool_decide_eq_true in Hblank.
    destruct (decide (Str.trim line = "")); [done|].
    destruct (JSON_parse line) as [event|]; [|done].
    apply bool_decide_eq_true in Hreg.
    destruct (lookup_schema_registered _ Hreg) as [schema Hs].
    destruct (tagged_object _ _ Hs) as [fields ->].
    rewrite Hs. by eexists.
  - intros [row H].
    destruct (decide (Str.trim line = "")); [done|].
    rewrite bool_decide_eq_true_2 by done. simpl.
    destruct (JSON_parse line) as [event|]; [|done].
    apply bool_decide_eq_true.
    destruct (lookup_schema (JS.String event.["type"])) as [schema| |] eqn:E.
    + apply lookup_schema_own in E. by eexists.
    + destruct event; discriminate H.
    + destruct event; discriminate H.
Qed.

Lemma read_accepted_tag line key row :
  read_line JSON_parse line = Accepted key row -> key = tag JSON_parse line.
Proof.
  intros H. destruct (read_line_keyed _ _ _ _ H) as (_ & _ & _ & fields & Hp).
  unfold read_line in H. unfold tag. rewrite Hp in *.
  destruct (decide _); [done|].
  destruct (lookup_schema _); by simplify_eq.
Qed.

Lemma accepted_counted lines :
  length (accepted JSON_parse lines)
  = length (filter (fun line => counted JSON_parse line = true) lines).
Proof.
  induction lines as [|line lines IH]; [done|].
  rewrite accepted_cons.
  destruct (decide (counted JSON_parse line = true)) as [Hc|Hc].
  - rewrite filter_cons_True by done.
    apply counted_read in Hc as [row ->]. simpl. by rewrite IH.
  - rewrite filter_cons_False by done.
    destruct (read_line JSON_parse line) as [|key row|m] eqn:E; [done| |done].
    exfalso. apply Hc. apply counted_read. exists row.
    by rewrite <- (read_accepted_tag _ _ _ E).
Qed.

Lemma accepted_counted_tag ty lines :
  length (filter (fun k => k = ty) (map fst (accepted JSON_parse lines)))
  = length (filter (fun line => counted JSON_parse line = true /\ tag JSON_parse line = ty) lines).
Proof.
  induction lines as [|line lines IH]; [done|].
  rewrite accepted_cons.
  destruct (decide (counted JSON_parse line = true)) as [Hc|Hc].
  - apply counted_read in Hc as Hr. destruct Hr as [row ->]. simpl.
    destruct (decide (tag JSON_parse line = ty)) as [Ht|Ht].
    + rewrite !filter_cons_True by done. simpl. by rewrite IH.
    + rewrite !filter_cons_False by tauto. by rewrite IH.
  - rewrite filter_cons_False by tauto.
    destruct (read_line JSON_parse line) as [|key row|m] eqn:E; [done| |done].
    exfalso. apply Hc. apply counted_read. exists row.
    by rewrite <- (read_accepted_tag _ _ _ E).
Qed.

End loader_claims.

(** ** The claims about the loader *)

(** C1. However the text is cut into chunks, the lines the chunked
    reader of [loadEvents] hands to [processLine] are the lines of the
    whole text split once on line feed: joined by line feeds they give
    the text back, none of them holds a line feed, a text without line
    feed is one line whatever carriage returns it holds, and the load
    itself is the load of the whole-text lines. *)
Theorem chunked_lines_whole (chunks : list string) :
  Lines.chunked_lines chunks = Lines.whole_lines (Lines.content chunks)
  /\ Str.join nl (Lines.chunked_lines chunks) = Lines.content chunks
  /\ Forall (fun line => Str.has Str.LF line = false) (Lines.chunked_lines chunks)
  /\ (Str.has Str.LF (Lines.content chunks) = false ->
      Lines.chunked_lines chunks = [Lines.content chunks])
  /\ (forall parse bind_undefined db,
        loadEvents parse bind_undefined chunks db
        = load_lines parse bind_undefined (Lines.whole_lines (Lines.content chunks)) db).
Proof.
  pose proof (chunked_lines_split chunks) as Hsplit.
  split; [exact Hsplit|]. rewrite Hsplit. unfold Lines.whole_lines.
  split; [apply join_split|].
  split; [apply split_pieces_no_sep|].
  split; [apply split_no_sep|].
  intros parse bu db. rewrite loadEvents_lines. by rewrite Hsplit.
Qed.

(** A carriage return, alone or before a line feed, stays in its
    line. *)
Example carriage_return_kept :
  Lines.chunked_lines ["a" +:+ String Str.CR "b"; String Str.CR nl +:+ "c"]
  = ["a" +:+ String Str.CR ("b" +:+ String Str.CR ""); "c"].
Proof. reflexivity. Qed.


Lemma forallb_replicate {A} (f : A -> bool) n x :
  f x = true -> forallb f (replicate n x) = true.
Proof. intros H. induction n as [|n IH]; simpl; [done|]. by rewrite H, IH. Qed.

Lemma accepted_replicate parse n line key row :
  read_line parse line = Accepted key row ->
  accepted parse (replicate n line) = replicate n (key, row).
Proof.
  intros H. induction n as [|n IH]; [done|].
  change (replicate (S n) line) with (line :: replicate n line).
  by rewrite accepted_cons, H, IH.
Qed.

Lemma many_size : Z.of_nat Sample.many = BATCH_SIZE + 1.
Proof. unfold Sample.many. apply Z2Nat.id. unfold BATCH_SIZE. lia. Qed.

#[global] Opaque Sample.many.

Lemma snapshot_lines : Lines.chunked_lines Sample.snapshot = replicate Sample.many Sample.watch.
Proof.
  rewrite chunked_lines_split. unfold Lines.whole_lines, Sample.snapshot, Lines.content.
  simpl foldr. rewrite app_nil_r_str. unfold nl.
  apply (split_join Str.LF (replicate Sample.many Sample.watch)).
  - intros H. apply (f_equal length) in H. rewrite length_replicate in H.
    pose proof many_size. pose proof BATCH_SIZE_pos. simpl in H. lia.
  - apply Forall_forall. intros p Hp. apply elem_of_replicate in Hp as [-> _].
    reflexivity.
Qed.

Lemma watch_read :
  exists row, read_line Json.parse Sample.watch = Accepted "WatchEvent" row.
Proof. eexists. vm_compute. reflexivity. Qed.

Lemma watch_loads :
  takes Json.parse None prepared Sample.watch
  && of_type Json.parse "WatchEvent" Sample.watch = true.
Proof. vm_compute. reflexivity. Qed.


(** C4. After a load that ended normally no table holds two rows with
    the same identifier; loading the same chunks again into the store
    it left ends normally and leaves that store as it is; and running
    the pipeline again, on whatever store is on disk, ends in the same
    state, so every table has the same number of rows. *)
Theorem reingestion_idempotent parse bind_undefined disk chunks st1 :
  ingest parse bind_undefined disk chunks = Ok st1 ->
  unique_ids (db st1)
  /\ (exists st2, loadEvents parse bind_undefined chunks (db st1) = Ok st2
                  /\ db st2 = db st1)
  /\ ingest parse bind_undefined (Some (db st1)) chunks = Ok st1
  /\ (forall st2, ingest parse bind_undefined (Some (db st1)) chunks = Ok st2 ->
      forall name, row_count (db st2) name = row_count (db st1) name).
Proof.
  intros H1. pose proof H1 as Hload. rewrite ingest_load_lines in Hload.
  set (lines := Lines.chunked_lines chunks) in *.
  destruct (load_lines_inv parse bind_undefined prepared lines fresh_store st1
              prepareInserts_fresh Hload) as (_ & _ & _ & _ & Hfl).
  pose proof (accepted_keyed parse lines) as Hkeyed.
  assert (Hk : Forall keyed (map snd (accepted parse lines))).
  { clear -Hkeyed. induction Hkeyed; simpl; constructor; auto. }
  pose proof (flush_shape bind_undefined _ _ _ _ prepared_fit_all Hfl) as Hshape.
  pose proof (fit_all_shape _ _ _ Hshape prepared_fit_all) as Hfit1.
  assert (Hprep1 : prepareInserts (db st1) = Ok prepared).
  { rewrite <- (prepareInserts_shape _ _ Hshape). apply prepareInserts_fresh. }
  split; [|split; [|split]].
  - exact (flush_unique bind_undefined _ _ _ _ prepared_fit_all Hk fresh_unique_ids Hfl).
  - pose proof (load_lines_takes parse bind_undefined prepared lines fresh_store st1
                  prepareInserts_fresh prepared_fit_all Hload) as Htakes.
    destruct (load_lines_runs parse bind_undefined prepared lines (db st1) Hprep1 Hfit1 Htakes)
      as [st2 Hst2].
    exists st2. split; [by rewrite loadEvents_lines|].
    destruct (load_lines_inv parse bind_undefined prepared lines (db st1) st2 Hprep1 Hst2)
      as (_ & _ & _ & _ & Hfl2).
    pose proof (flush_settles bind_undefined _ _ _ _ prepared_fit_all Hk Hfl) as Hset.
    rewrite (flush_settled bind_undefined _ _ _ Hfit1 Hset) in Hfl2. congruence.
  - by rewrite ingest_load_lines.
  - intros st2 H2. rewrite ingest_load_lines in H2. fold lines in H2. congruence.
Qed.

Lemma twice_takes :
  forallb (takes Json.parse None prepared) (Lines.chunked_lines Sample.twice) = true.
Proof. vm_compute. reflexivity. Qed.

Lemma twice_runs : exists st, ingest Json.parse None None Sample.twice = Ok st.
Proof.
  rewrite ingest_load_lines.
  apply (load_lines_runs Json.parse None prepared _ fresh_store
           prepareInserts_fresh prepared_fit_all).
  apply Forall_forall. intros l Hl. pose proof twice_takes as H.
  rewrite forallb_forall in H. exact (H l (proj1 (list_elem_of_In _ _) Hl)).
Qed.

Lemma reingestion_idempotent_witness :
  exists st1,
    ingest Json.parse None None Sample.twice = Ok st1
    /\ unique_ids (db st1)
    /\ ingest Json.parse None (Some (db st1)) Sample.twice = Ok st1.
Proof.
  destruct twice_runs as [st1 H1]. exists st1.
  destruct (reingestion_idempotent Json.parse None None Sample.twice st1 H1)
    as (Hu & _ & Hagain & _).
  auto.
Defined.

(** The example of the specification: two copies of an event around a
    blank line give a total of two and one stored row. *)
Lemma twice_loaded :
  match ingest Json.parse None None Sample.twice with
  | Ok st =>
      bool_decide (count st = 2) && bool_decide (total_rows (db st) = 1%nat)
      && bool_decide (row_count (db st) "watch_events" = 1%nat)
  | Throw _ => false
  end = true.
Proof. vm_compute. reflexivity. Qed.

(** C10. The running total is the number of lines that are not blank,
    decode, and carry a type tag of the registry, and the count of a
    type is the number of those with that tag, whether or not their
    identifiers repeat; the total can therefore exceed the number of
    rows stored, as it does for an event given twice. *)
Theorem counts_include_duplicates parse bind_undefined chunks db0 st :
  loadEvents parse bind_undefined chunks db0 = Ok st ->
  let lines := Lines.chunked_lines chunks in
  count st = Z.of_nat (length (filter (fun l => counted parse l = true) lines))
  /\ (forall ty,
        default 0 (typeCounts st !! ty)
        = Z.of_nat (length (filter (fun l => counted parse l = true /\ tag parse l = ty) lines)))
  /\ (exists st',
        ingest Json.parse None None Sample.twice = Ok st'
        /\ count st' = 2 /\ total_rows (db st') = 1%nat).
Proof.
  intros H lines. rewrite loadEvents_lines in H. fold lines in H.
  assert (exists stmts, prepareInserts db0 = Ok stmts) as [stmts Hprep].
  { unfold load_lines in H. destruct (prepareInserts db0); [by eexists|done]. }
  destruct (load_lines_inv parse bind_undefined stmts lines db0 st Hprep H)
    as (Hc & Ht & _).
  split; [by rewrite Hc, accepted_counted|]. split.
  - intros ty. by rewrite Ht, tally_lookup, accepted_counted_tag.
  - pose proof twice_loaded as Htwice.
    destruct (ingest Json.parse None None Sample.twice) as [st'|]; [|done].
    exists st'. apply andb_true_iff in Htwice as [Htwice _].
    apply andb_true_iff in Htwice as [H2 H1].
    apply bool_decide_eq_true in H2, H1. auto.
Qed.

Lemma counts_include_duplicates_witness :
  exists st,
    loadEvents Json.parse None Sample.twice fresh_store = Ok st
    /\ count st
       = Z.of_nat (length (filter (fun l => counted Json.parse l = true)
                                  (Lines.chunked_lines Sample.twice))).
Proof.
  destruct twice_runs as [st H]. exists st.
  unfold ingest in H. rewrite createArchiveDatabase_fresh in H. simpl in H.
  split; [exact H|].
  by destruct (counts_include_duplicates Json.parse None Sample.twice fresh_store st H)
    as [Hc _].
Defined.

(** C7 as stated fails: a line that does not decode is skipped but
    nothing counts it; the loader's variables are what they were. *)
Lemma undecodable_line_not_counted :
  Str.trim "{not json" <> ""
  /\ Json.parse "{not json" = None
  /\ processLine Json.parse None prepared Sample.start "{not json" = Ok Sample.start.
Proof. repeat split. discriminate. Qed.

(** C7, amended. A line that is not blank and does not decode is
    skipped without being counted: [processLine] returns the loader's
    variables unchanged, and a load over lines that include it is the
    load over the other lines. *)
Theorem undecodable_line_skipped parse bind_undefined line :
  Str.trim line <> "" -> parse line = None ->
  (forall stmts st, processLine parse bind_undefined stmts st line = Ok st)
  /\ (forall before after db0,
        load_lines parse bind_undefined (before ++ line :: after) db0
        = load_lines parse bind_undefined (before ++ after) db0).
Proof.
  intros Hblank Hparse.
  assert (Hskip : forall stmts st, processLine parse bind_undefined stmts st line = Ok st).
  { intros stmts st. unfold processLine. rewrite Hparse. by destruct (decide _). }
  split; [exact Hskip|].
  intros before after db0. unfold load_lines.
  destruct (prepareInserts db0) as [stmts|]; [|done]. simpl.
  rewrite !for_each_app. simpl. 
  destruct (for_each _ _ before) as [st1|]; [|done]. simpl.
  by rewrite Hskip.
Qed.

Lemma undecodable_line_skipped_witness :
  load_lines Json.parse None Sample.noisy fresh_store
  = load_lines Json.parse None [Sample.watch; Sample.event_line "2" "ForkEvent"] fresh_store.
Proof.
  destruct (undecodable_line_skipped Json.parse None "{not json") as [_ H].
  - discriminate.
  - reflexivity.
  - exact (H [Sample.watch] [Sample.event_line "2" "ForkEvent"] fresh_store).
Defined.

(** ** The claims about the schema registry *)

Lemma registry_complete : forallb complete schemas = true.
Proof. vm_compute. reflexivity. Qed.

(** C2. For every schema of the registry, the columns of the generated
    [CREATE TABLE] statement are the common columns followed by the
    schema's own, no name occurs twice among them, and the prepared
    insert statement lists the same columns in the same order, with one
    parameter for each. *)
Theorem schema_columns_complete :
  Forall (fun schema =>
            table_columns schema = columnNames COMMON_DDL ++ columnNames (columns schema)
            /\ NoDup (table_columns schema)
            /\ Sql.insert_columns (insert_sql schema) = table_columns schema
            /\ Sql.insert_parameters (insert_sql schema) = length (table_columns schema))
         schemas.
Proof.
  apply Forall_forall. intros schema Hin.
  pose proof registry_complete as H. rewrite forallb_forall in H.
  specialize (H schema (proj1 (list_elem_of_In _ _) Hin)).
  unfold complete in H. rewrite !andb_true_iff, !bool_decide_eq_true in H.
  tauto.
Qed.

(** The store agrees with the statements: each table has the columns
    of its [CREATE TABLE] statement, and the statement prepared for the
    type lists them. *)
Lemma store_columns key schema :
  JS.assoc key EVENT_SCHEMAS = Some schema ->
  exists stmt t,
    JS.assoc key prepared = Some stmt
    /\ fresh_store !! table schema = Some t
    /\ Sql.cols stmt = Sql.column_names t.
Proof.
  intros Hk. destruct (prepared_for key schema Hk) as (stmt & t & Hs & Hinto & Ht & _).
  exists stmt, t. repeat split; [done..|].
  pose proof (assoc_fit _ _ _ _ prepared_fit_all Hs) as Hfit.
  apply fits_inv in Hfit as (t' & Ht' & Hc & _). rewrite Hinto in Ht'. congruence.
Qed.

(** Reading a property of an object that lost a property. *)
Lemma assoc_without k k0 fields :
  JS.assoc k0 (without k fields) = if decide (k0 = k) then None else JS.assoc k0 fields.
Proof.
  unfold without. induction fields as [|[k' v] fields IH]; simpl.
  - by destruct (decide _).
  - destruct (decide (k' = k)) as [->|Hne].
    + rewrite filter_cons_False by (simpl; tauto). rewrite IH.
      destruct (decide (k0 = k)) as [->|Hne0]; [by destruct (decide (k = k))|].
      by destruct (decide (k = k0)); [subst|].
    + rewrite filter_cons_True by done. simpl. rewrite IH.
      destruct (decide (k' = k0)) as [->|]; [|done].
      by destruct (decide (k0 = k)).
Qed.

Lemma or_null_without k k0 fields :
  (JObj (without k fields)).[k0] ??null = (JObj fields).[k0] ??null
  \/ (JObj (without k fields)).[k0] ??null = JNull.
Proof. simpl. rewrite assoc_without. destruct (decide _); auto. Qed.

Lemma json_without k k0 fields :
  json (JObj (without k fields)).[k0] = json (JObj fields).[k0]
  \/ json (JObj (without k fields)).[k0] = JNull.
Proof. simpl. rewrite assoc_without. destruct (decide _); auto. Qed.

(** C5. For every schema of the registry and every payload, present or
    not, [extract] returns one value for each of the schema's columns;
    the values are all [null] when the payload has none of the fields,
    and taking a field away from a payload object changes values to
    [null] only. *)
Theorem extract_total :
  Forall (fun schema =>
            forall payload : option jvalue,
              let p := JS.or_empty payload in
              length (extract schema p) = length (columnNames (columns schema))
              /\ ((forall k, p.[k] = None) ->
                  Forall (fun v => v = JNull) (extract schema p))
              /\ (forall k fields, p = JObj fields ->
                  Forall2 (fun v v' => v' = v \/ v' = JNull)
                          (extract schema p) (extract schema (JObj (without k fields)))))
         schemas.
Proof.
  unfold schemas, EVENT_SCHEMAS. simpl map.
  repeat (apply Forall_cons; split); [..|apply Forall_nil_2];
    intros payload; (split; [reflexivity|split]).
  all: try (intros Hnone; simpl extract; rewrite ?Hnone; by repeat constructor).
  all: intros k fields Hp; rewrite Hp; simpl extract;
    repeat (apply Forall2_cons; split;
            [first [apply or_null_without | apply json_without]|]);
    apply Forall2_nil_2.
Qed.

(** ** The claims about the download *)

(** One request of [download]: a 301 or 302 answer with a [Location]
    is followed by a download of the target, whatever the number of
    redirects followed before. *)
Lemma download_redirect fuel net url statusCode target body :
  net url = Response statusCode (Some target) body ->
  statusCode = 301 \/ statusCode = 302 ->
  download (S fuel) net url
  = match download fuel net target with
    | Some (urls, o) => Some (url :: urls, o)
    | None => None
    end.
Proof.
  intros Hnet Hcode. simpl. rewrite Hnet.
  by destruct Hcode as [-> | ->].
Qed.



(** ** The UTC calendar *)

Section calendar_facts.
Import Calendar.

Lemma civil_fields z :
  let doe := (z + 719468) - (z + 719468) / 146097 * 146097 in
  let yoe := (doe - doe / 1460 + doe / 36524 - doe / 146096) / 365 in
  let doy := doe - (365 * yoe + yoe / 4 - yoe / 100) in
  let mp := (5 * doy + 2) / 153 in
  0 <= doe < 146097 /\ 0 <= yoe < 400 /\ 0 <= doy <= 366 /\ 0 <= mp <= 11.
Proof.
  intros doe yoe doy mp.
  assert (H1 : 0 <= doe < 146097) by (subst doe; Z.div_mod_to_equations; lia).
  assert (H2 : 0 <= yoe < 400) by (subst yoe; clearbody doe; Z.div_mod_to_equations; lia).
  assert (H3 : 0 <= doy <= 366) by (subst doy yoe; clearbody doe; Z.div_mod_to_equations; lia).
  assert (H4 : 0 <= mp <= 11) by (subst mp; clearbody doy; Z.div_mod_to_equations; lia).
  auto.
Qed.

(** The day number of the calendar fields of a day number is that day
    number. *)
Lemma civil_round_trip z :
  days_from_civil (fst (fst (civil_from_days z))) (snd (fst (civil_from_days z)))
                  (snd (civil_from_days z)) = z.
Proof.
  unfold civil_from_days. cbv zeta.
  destruct (civil_fields z) as (H1 & H2 & H3 & H4). cbv zeta in *.
  set (doe := z + 719468 - (z + 719468) / 146097 * 146097) in *.
  set (yoe := (doe - doe / 1460 + doe / 36524 - doe / 146096) / 365) in *.
  set (doy := doe - (365 * yoe + yoe / 4 - yoe / 100)) in *.
  set (mp := (5 * doy + 2) / 153) in *.
  set (era := (z + 719468) / 146097) in *.
  simpl fst. simpl snd. unfold days_from_civil.
  assert (Hera : (yoe + era * 400) / 400 = era).
  { rewrite Z.div_add by lia. rewrite Z.div_small by lia. lia. }
  destruct (mp <? 10) eqn:Hmp.
  - apply Z.ltb_lt in Hmp.
    replace (mp + 3 <=? 2) with false by (symmetry; apply Z.leb_gt; lia).
    replace (2 <? mp + 3) with true by (symmetry; apply Z.ltb_lt; lia).
    rewrite Hera. replace (mp + 3 - 3) with mp by lia.
    replace (yoe + era * 400 - era * 400) with yoe by lia.
    clearbody mp. subst doy. clearbody yoe. subst doe era. lia.
  - apply Z.ltb_ge in Hmp.
    replace (mp - 9 <=? 2) with true by (symmetry; apply Z.leb_le; lia).
    replace (2 <? mp - 9) with false by (symmetry; apply Z.ltb_ge; lia).
    replace (yoe + era * 400 + 1 - 1) with (yoe + era * 400) by lia.
    rewrite Hera. replace (mp - 9 + 9) with mp by lia.
    replace (yoe + era * 400 - era * 400) with yoe by lia.
    clearbody mp. subst doy. clearbody yoe. subst doe era. lia.
Qed.

Lemma days_from_civil_day y m d : days_from_civil y m d = days_from_civil y m 1 + d - 1.
Proof. unfold days_from_civil. cbv zeta. lia. Qed.

Lemma Day_of_day day t : Day (day * msPerDay + t mod msPerDay) = day.
Proof. unfold Day, msPerDay. Z.div_mod_to_equations. lia. Qed.

(** [setUTCDate(getUTCDate() - 1)] is the same time on the day
    before. *)
Lemma yesterday_day now : Day (setUTCDate now (getUTCDate now - 1)) = Day now - 1.
Proof.
  unfold setUTCDate. rewrite Day_of_day.
  unfold getUTCFullYear, getUTCMonth, getUTCDate.
  replace (snd (fst (civil_from_days (Day now))) - 1 + 1)
    with (snd (fst (civil_from_days (Day now)))) by lia.
  pose proof (civil_round_trip (Day now)) as H.
  rewrite days_from_civil_day in H. lia.
Qed.

End calendar_facts.

(** ** The claims about the arguments *)

Lemma parseArgs_default now :
  parseArgs [] now = Ok {| date := iso_date (Calendar.Day now - 1); hour := 0 |}.
Proof.
  unfold parseArgs, iso_date.
  set (yesterday := Calendar.setUTCDate now (Calendar.getUTCDate now - 1)).
  assert (Hy : Calendar.Day yesterday = Calendar.Day now - 1) by apply yesterday_day.
  clearbody yesterday.
  unfold Calendar.getUTCFullYear, Calendar.getUTCMonth, Calendar.getUTCDate.
  rewrite Hy.
  destruct (Calendar.civil_from_days (Calendar.Day now - 1)) as [[y m] d].
  cbv [fst snd]. replace (m - 1 + 1) with m by lia. reflexivity.
Qed.

(** C9 as stated fails: an hour argument that is not a number but
    begins with one is accepted, and the download is attempted. *)
Lemma hour_with_trailing_text_accepted :
  parseArgs ["2024-01-01"; "12abc"] 0 = Ok {| date := "2024-01-01"; hour := 12 |}
  /\ main Json.parse None 1 ["2024-01-01"; "12abc"] 0 Sample.offline
     = Some {| requested := ["https://data.gharchive.org/2024-01-01-12.json.gz"];
               ended := Throw "getaddrinfo ENOTFOUND data.gharchive.org" |}.
Proof. split; reflexivity. Qed.

(** C9, amended. An invocation whose date argument does not match
    YYYY-MM-DD, or whose hour argument, read as [parseInt] reads it
    (white space and a sign skipped, then the longest run of digits,
    the rest ignored), has no digits or a value outside 0 to 23, ends
    with an error that names the argument, before any request; an hour
    argument whose leading digits give a value from 0 to 23 is
    accepted with that value whatever follows the digits; a date alone
    gives hour 0; and no arguments give the UTC date of the day before
    the clock's and hour 0. *)
Theorem invalid_arguments_rejected parse bind_undefined fuel now w :
  (forall date rest,
     date_format date = false ->
     main parse bind_undefined fuel (date :: rest) now w
     = Some {| requested := [];
               ended := Throw ("Invalid date format: " +:+ date +:+ ". Expected YYYY-MM-DD") |})
  /\ (forall date h rest,
        date_format date = true -> hour_read h = None ->
        main parse bind_undefined fuel (date :: h :: rest) now w
        = Some {| requested := [];
                  ended := Throw ("Invalid hour: " +:+ h +:+ ". Expected 0-23") |})
  /\ (forall date h rest n,
        date_format date = true -> hour_read h = Some n ->
        0 <= n <= 23 /\ parseInt h = Some n
        /\ parseArgs (date :: h :: rest) now = Ok {| date := date; hour := n |})
  /\ (forall date,
        date_format date = true ->
        parseArgs [date] now = Ok {| date := date; hour := 0 |})
  /\ parseArgs [] now = Ok {| date := iso_date (Calendar.Day now - 1); hour := 0 |}.
Proof.
  split; [|split; [|split; [|split]]].
  - intros date rest Hd. unfold main, parseArgs. by rewrite Hd.
  - intros date h rest Hd Hh. unfold main, parseArgs, hour_read in *. rewrite Hd. simpl.
    destruct (parseInt h) as [n|]; [|done].
    by destruct ((n <? 0) || (23 <? n)).
  - intros date h rest n Hd Hh. unfold parseArgs, hour_read in *. rewrite Hd. simpl.
    destruct (parseInt h) as [n'|]; [|done].
    destruct ((n' <? 0) || (23 <? n')) eqn:E; [done|]. simplify_eq.
    apply orb_false_iff in E as [E1 E2].
    apply Z.ltb_ge in E1, E2. auto.
  - intros date Hd. unfold parseArgs. by rewrite Hd.
  - apply parseArgs_default.
Qed.

Example default_date_leap_day :
  parseArgs [] 1709251200000 = Ok {| date := "2024-02-29"; hour := 0 |}.
Proof. reflexivity. Qed.

Example hour_out_of_range :
  parseArgs ["2024-01-01"; "24"] 0 = Throw "Invalid hour: 24. Expected 0-23".
Proof. reflexivity. Qed.

(** ** The claims about the envelope *)

Lemma assoc_replace_field k' v o k :
  JS.assoc k (replace_field k' v o) = if decide (k' = k) then Some v else JS.assoc k o.
Proof.
  induction o as [|[k0 v0] o IH]; simpl.
  - done.
  - destruct (decide (k0 = k')) as [->|Hne]; simpl.
    + by destruct (decide (k' = k)).
    + rewrite IH. destruct (decide (k0 = k)) as [->|]; [|done].
      by destruct (decide (k' = k)); [subst|].
Qed.

Lemma assoc_Some_keys {A} k (fields : list (string * A)) :
  is_Some (JS.assoc k fields) <-> k ∈ map fst fields.
Proof.
  induction fields as [|[k' v] fields IH]; simpl.
  - split; [by intros [? ?]|by intros ?%elem_of_nil].
  - destruct (decide (k' = k)) as [->|Hne].
    + split; [intros _; left|by eexists].
    + rewrite IH. split; [by right|].
      intros H. apply elem_of_cons in H as [->|H]; [done|exact H].
Qed.

Lemma collect_assoc fields o key k :
  JS.assoc k (collect (JObj fields) o key)
  = if decide (key = k /\ ~ (key ∈ KNOWN_EVENT_KEYS \/ key = "__proto__"))
    then match JS.assoc key fields with
         | Some v => Some v
         | None => JS.assoc k o
         end
    else JS.assoc k o.
Proof.
  unfold collect, assign. cbn [JS.get].
  destruct (decide (key ∈ KNOWN_EVENT_KEYS)) as [Hknown|Hknown].
  { by rewrite decide_False by tauto. }
  destruct (JS.assoc key fields) as [x|].
  - destruct (decide (key = "__proto__")) as [Hp|Hp].
    { by rewrite decide_False by tauto. }
    rewrite assoc_replace_field. destruct (decide (key = k)) as [->|Hne].
    + by rewrite decide_True by tauto.
    + by rewrite decide_False by tauto.
  - by destruct (decide (key = k /\ ~ (key ∈ KNOWN_EVENT_KEYS \/ key = "__proto__"))).
Qed.

Lemma collect_lookup fields keys : forall o k,
  JS.assoc k (foldl (collect (JObj fields)) o keys)
  = if decide (k ∈ keys /\ ~ (k ∈ KNOWN_EVENT_KEYS \/ k = "__proto__"))
    then match JS.assoc k fields with
         | Some v => Some v
         | None => JS.assoc k o
         end
    else JS.assoc k o.
Proof.
  induction keys as [|key keys IH]; intros o k; cbn [foldl].
  - rewrite decide_False; [done|]. intros [H _]. by apply elem_of_nil in H.
  - rewrite IH, collect_assoc.
    destruct (decide (k ∈ keys /\ ~ (k ∈ KNOWN_EVENT_KEYS \/ k = "__proto__")))
      as [[Hin Hk]|Hno].
    + rewrite (decide_True (P := k ∈ key :: keys /\ _)) by (split; [by right|done]).
      destruct (JS.assoc k fields) as [x|] eqn:Hx; [done|].
      destruct (decide (key = k /\ _)) as [[-> _]|_]; [by rewrite Hx|done].
    + destruct (decide (key = k /\ ~ (key ∈ KNOWN_EVENT_KEYS \/ key = "__proto__")))
        as [[-> Hk]|Hne].
      * rewrite (decide_True (P := k ∈ k :: keys /\ _)) by (split; [left|done]). done.
      * rewrite (decide_False (P := k ∈ key :: keys /\ _)); [done|].
        intros [Hin Hk]. apply elem_of_cons in Hin as [->|Hin]; tauto.
Qed.

(** The residual mapping holds exactly the unrecognized properties,
    [__proto__] excepted. *)
Lemma otherFields_lookup fields k :
  JS.assoc k (otherFields (JObj fields))
  = if decide (k ∈ KNOWN_EVENT_KEYS \/ k = "__proto__") then None else JS.assoc k fields.
Proof.
  unfold otherFields. simpl Object_keys.
  change (fun o key => if decide (key ∈ KNOWN_EVENT_KEYS) then o
                       else assign o key (JObj fields).[key])
    with (collect (JObj fields)).
  rewrite collect_lookup. simpl.
  destruct (decide (k ∈ map fst fields /\ _)) as [[Hin Hk]|Hno].
  - rewrite decide_False by done. by destruct (JS.assoc k fields).
  - destruct (decide (k ∈ KNOWN_EVENT_KEYS \/ k = "__proto__")); [done|].
    destruct (JS.assoc k fields) eqn:E; [|done].
    exfalso. apply Hno. split; [|done]. apply assoc_Some_keys. by rewrite E.
Qed.

(** *** A value inside the serialized mapping *)

Lemma prefix_app n b : Str.prefix n (n +:+ b) = true.
Proof. induction n as [|c n IH]; [done|]. simpl. by destruct (decide (c = c)). Qed.

Lemma prefix_app_r n h b : Str.prefix n h = true -> Str.prefix n (h +:+ b) = true.
Proof.
  revert h. induction n as [|c n IH]; intros [|d h]; simpl; try done.
  destruct (decide (c = d)); [|done]. apply IH.
Qed.

Lemma includes_unfold n h :
  Str.includes n h
  = Str.prefix n h || match h with "" => false | String _ t => Str.includes n t end.
Proof. by destruct h. Qed.

Lemma includes_app_l n a h : Str.includes n h = true -> Str.includes n (a +:+ h) = true.
Proof.
  intros H. induction a as [|c a IH]; [done|].
  change (String c a +:+ h) with (String c (a +:+ h)).
  rewrite includes_unfold, IH. apply orb_true_r.
Qed.

Lemma includes_app_r n h b : Str.includes n h = true -> Str.includes n (h +:+ b) = true.
Proof.
  induction h as [|c h IH]; rewrite includes_unfold; intros H.
  - rewrite orb_false_r in H. destruct n; [|done]. by destruct b.
  - apply orb_true_iff in H as [H|H].
    + change (String c h +:+ b) with (String c (h +:+ b)).
      rewrite includes_unfold.
      change (String c (h +:+ b)) with (String c h +:+ b).
      by rewrite (prefix_app_r _ _ _ H).
    + change (String c h +:+ b) with (String c (h +:+ b)).
      rewrite includes_unfold, (IH H). apply orb_true_r.
Qed.

Lemma includes_refl n : Str.includes n n = true.
Proof.
  rewrite includes_unfold. rewrite <- (app_nil_r_str n) at 2.
  by rewrite prefix_app.
Qed.

Lemma join_includes sep parts p n :
  p ∈ parts -> Str.includes n p = true -> Str.includes n (Str.join sep parts) = true.
Proof.
  intros Hin Hp. induction parts as [|p' parts IH]; [by apply elem_of_nil in Hin|].
  destruct parts as [|p'' parts].
  - apply list_elem_of_singleton in Hin. by subst.
  - change (Str.join sep (p' :: p'' :: parts))
      with (p' +:+ sep +:+ Str.join sep (p'' :: parts)).
    apply elem_of_cons in Hin as [->|Hin].
    + by apply includes_app_r.
    + apply includes_app_l, includes_app_l. by apply IH.
Qed.

Lemma stringify_includes fields key v :
  JS.assoc key fields = Some v ->
  Str.includes (JS.quote key +:+ ":" +:+ JS.stringify v) (JS.stringify (JObj fields)) = true.
Proof.
  intros H. apply assoc_elem_of in H.
  change (JS.stringify (JObj fields))
    with ("{" +:+ Str.join ","
                    (map (fun kv => JS.quote (fst kv) +:+ ":" +:+ JS.stringify (snd kv)) fields)
              +:+ "}").
  apply includes_app_l, includes_app_r.
  apply join_includes with (JS.quote key +:+ ":" +:+ JS.stringify v).
  - apply list_elem_of_fmap. by exists (key, v).
  - apply includes_refl.
Qed.



Ltac known_key :=
  unfold KNOWN_EVENT_KEYS;
  repeat first [apply list_elem_of_here | apply list_elem_of_further].

(** The other values of a row read recognized keys only. *)
Lemma row_reads_known_keys event event' schema :
  (forall k, k ∈ KNOWN_EVENT_KEYS -> event.[k] = event'.[k]) ->
  take 17 (commonValues event) = take 17 (commonValues event')
  /\ extract schema (JS.or_empty event.["payload"])
     = extract schema (JS.or_empty event'.["payload"]).
Proof.
  intros H.
  assert (Hid : event.["id"] = event'.["id"]) by (apply H; known_key).
  assert (Hcreated : event.["created_at"] = event'.["created_at"]) by (apply H; known_key).
  assert (Hpublic : event.["public"] = event'.["public"]) by (apply H; known_key).
  assert (Hactor : event.["actor"] = event'.["actor"]) by (apply H; known_key).
  assert (Hrepo : event.["repo"] = event'.["repo"]) by (apply H; known_key).
  assert (Horg : event.["org"] = event'.["org"]) by (apply H; known_key).
  assert (Hpayload : event.["payload"] = event'.["payload"]) by (apply H; known_key).
  unfold commonValues. cbv zeta. simpl take.
  by rewrite Hid, Hcreated, Hpublic, Hactor, Hrepo, Horg, Hpayload.
Qed.

(** C8 fails on the code for the key [__proto__]: the line below
    decodes to a record with that key, which is not a recognized one,
    the line is accepted, and the "other" column of its row is [null];
    a record with another extra key has the key in that column. *)
Lemma proto_key_lost :
  ("__proto__" ∉ KNOWN_EVENT_KEYS)
  /\ Json.parse Sample.proto_line = Some Sample.with_proto
  /\ Sample.with_proto.["__proto__"] = Some (JObj [("x", JNum 1)])
  /\ read_line Json.parse Sample.proto_line
     = Accepted "WatchEvent"
         {| type := Some (JStr "WatchEvent");
            values := commonValues Sample.with_proto ++ [Some JNull] |}
  /\ commonValues Sample.with_proto !! 17%nat = Some (Some JNull)
  /\ commonValues Sample.with_extra !! 17%nat
     = Some (Some (JStr (JS.stringify (JObj [("score", JNum 7)])))).
Proof.
  split.
  { unfold KNOWN_EVENT_KEYS. rewrite !not_elem_of_cons. repeat split; try discriminate.
    apply not_elem_of_nil. }
  repeat split; vm_compute; reflexivity.
Qed.

(** ** Further facts about the envelope and the registry lookup *)



Lemma same_known_keys k :
  k ∈ KNOWN_EVENT_KEYS -> Sample.with_extra.[k] = Sample.with_proto.[k].
Proof.
  unfold KNOWN_EVENT_KEYS. rewrite !elem_of_cons.
  intros [->|[->|[->|[->|[->|[->|[->|[->|H]]]]]]]]; try reflexivity.
  by apply elem_of_nil in H.
Qed.

Lemma row_reads_known_keys_witness :
  take 17 (commonValues Sample.with_extra) = take 17 (commonValues Sample.with_proto).
Proof.
  exact (proj1 (row_reads_known_keys Sample.with_extra Sample.with_proto
                  {| table := "watch_events"; columns := "action TEXT"; extraIndexes := None;
                     extract := fun p => [p.["action"] ??null] |}
                  same_known_keys)).
Defined.



(** A record whose type tag is a name that every object inherits from
    [Object.prototype] makes [processLine] throw: the lookup in the
    registry finds the inherited member, which has no [extract]. *)
Lemma inherited_tag_throws parse bind_undefined stmts st line fields :
  Str.trim line <> "" ->
  parse line = Some (JObj fields) ->
  JS.String (JObj fields).["type"] ∈ JS.Object_prototype_names ->
  processLine parse bind_undefined stmts st line
  = Throw "TypeError: schema.extract is not a function".
Proof.
  intros Hblank Hp Hproto. unfold processLine. rewrite Hp.
  destruct (decide _); [done|].
  assert (Hreg : JS.assoc (JS.String (JObj fields).["type"]) EVENT_SCHEMAS = None).
  { revert Hproto. generalize (JS.String (JObj fields).["type"]). intros key.
    unfold JS.Object_prototype_names. rewrite !elem_of_cons.
    intros [->|[->|[->|[->|[->|[->|[->|[->|[->|[->|[->|[->|H]]]]]]]]]]]];
      try reflexivity.
    by apply elem_of_nil in H. }
  unfold lookup_schema. rewrite Hreg. by rewrite decide_True.
Qed.

Lemma inherited_tag_throws_witness :
  processLine Json.parse None prepared Sample.start Sample.constructor_line
  = Throw "TypeError: schema.extract is not a function".
Proof.
  apply (inherited_tag_throws Json.parse None prepared Sample.start Sample.constructor_line
           [("type", JStr "constructor")]).
  - discriminate.
  - reflexivity.
  - apply list_elem_of_here.
Defined.
